(** * serial-monitor: the line-ending highlighter and the MessageItem component

    A shallow embedding of [highlightLineEndings] and of the handlers of
    [MessageItemComponent], and the properties of them that the
    specification states.

    JavaScript strings are sequences of UTF-16 code units; they are modelled
    as lists of code units so that [text.length], [text[i]] and
    [text.substring] are the list operations. *)

From Stdlib Require Import NArith String Ascii.
From stdpp Require Import base list.

Local Open Scope N_scope.
Local Open Scope nat_scope.

(** ** JavaScript strings and the built-ins the component calls *)

Module JS.

(** A code unit is a number below 65536; the definitions below do not
    depend on the bound. *)
Abbreviation char16 := N (only parsing).
Abbreviation jsstring := (list N) (only parsing).

(** An ASCII literal of the source as a list of code units. *)
Definition lit (s : string) : jsstring :=
  map N_of_ascii (list_ascii_of_string s).

Definition CR : char16 := 13%N.
Definition LF : char16 := 10%N.

(** [text.substring(a, b)] for [a <= b], and [text.substring(a)]. *)
Definition substring (text : jsstring) (a b : nat) : jsstring :=
  take (b - a) (drop a text).

Definition substring_from (text : jsstring) (a : nat) : jsstring :=
  drop a text.

(** The class [\s] of a JavaScript regular expression: WhiteSpace and
    LineTerminator code points, all of them in the basic plane. *)
Definition is_space (c : char16) : bool :=
  ((9 <=? c) && (c <=? 13))%N
  || (c =? 32)%N || (c =? 160)%N || (c =? 5760)%N
  || ((8192 <=? c) && (c <=? 8202))%N
  || (c =? 8232)%N || (c =? 8233)%N || (c =? 8239)%N
  || (c =? 8287)%N || (c =? 12288)%N || (c =? 65279)%N.

(** [String.prototype.toUpperCase], one code unit at a time.  Basic Latin
    and the Latin-1 Supplement are mapped as Unicode does, sharp s
    included, which grows to two units.  Outside Latin-1 the model has
    dotless i and long s, whose capitals are the ASCII letters I and S,
    and a with right half ring, whose capital is A followed by a modifier
    letter.  The other entries of the Unicode table send letters outside
    ASCII to capitals without the digit 0 and the letters A and D, and
    are left out: they cannot turn a word into 0D or 0A, or keep it from
    it. *)
Definition upper_unit (c : char16) : jsstring :=
  if ((97 <=? c) && (c <=? 122))%N then [(c - 32)%N]
  else if (c =? 181)%N then [924%N]
  else if (c =? 223)%N then [83%N; 83%N]
  else if ((224 <=? c) && (c <=? 254) && negb (c =? 247))%N then [(c - 32)%N]
  else if (c =? 255)%N then [376%N]
  else if (c =? 305)%N then [73%N]
  else if (c =? 383)%N then [83%N]
  else if (c =? 7834)%N then [65%N; 702%N]
  else [c].

Definition toUpperCase (s : jsstring) : jsstring :=
  flat_map upper_unit s.

(** [text.split(/(\s+)/)].  The pattern is greedy and never matches the
    empty string, so its matches are the maximal runs of white space; the
    capture group puts every run into the result between the pieces it
    separates.  The result starts and ends with a piece, which is empty
    when the text starts or ends with white space, and the empty text
    gives the one empty piece. *)
Inductive scan_mode := InWord | InSpace.

Fixpoint scan (m : scan_mode) (acc : jsstring) (s : jsstring)
  : list jsstring :=
  match s with
  | [] =>
      match m with
      | InWord => [acc]
      | InSpace => [acc; []]
      end
  | c :: s' =>
      match m, is_space c with
      | InWord, false => scan InWord (acc ++ [c]) s'
      | InWord, true => acc :: scan InSpace [c] s'
      | InSpace, true => scan InSpace (acc ++ [c]) s'
      | InSpace, false => acc :: scan InWord [c] s'
      end
  end.

Definition split_spaces (text : jsstring) : list jsstring :=
  scan InWord [] text.

(** [for (let i = 0; i < n; i++) body(i)] over a loop state. *)
Definition for_loop {St : Type} (n : nat) (body : nat -> St -> St)
  (init : St) : St :=
  fold_left (fun s i => body i s) (seq 0 n) init.

End JS.

Import JS.

(** ** The types of [types/index.ts] *)

Inductive DataFormat := hex | binary | ascii | decimal | utf8 | base64.

Inductive LineEnding := none | cr | lf | crlf | custom.

Inductive MessageType := sent | received.

Record SerialMessage := {
  id : jsstring;
  type : MessageType;
  data : list N;
  timestamp : N;
  format : DataFormat;
  displayText : jsstring;
  originalData : option jsstring
}.

Record SerialConnectionConfig := {
  baudRate : N;
  lineEnding : LineEnding;
  customLineEnding : option jsstring;
  readUntilLineEnding : option bool;
  readLineEnding : option LineEnding;
  readCustomLineEnding : option jsstring
}.

(** ** What the highlighter returns

    A [React.ReactNode] that is either the text itself or an array whose
    elements are strings and [<span>] elements. *)

Record Style := {
  backgroundColor : string;
  color : string;
  padding : string;
  borderRadius : string;
  fontWeight : nat
}.

Record Span := {
  key : nat;
  style : Style;
  title : string;
  children : jsstring
}.

Inductive Part :=
  | PText (s : jsstring)
  | PSpan (sp : Span).

Inductive ReactNode :=
  | RString (s : jsstring)
  | RArray (parts : list Part).

(** ** highlightLineEndings *)

Module Highlighter.

Definition emphasis (isCR : bool) : Style :=
  {| backgroundColor :=
       if isCR then "var(--mantine-color-orange-2)"
       else "var(--mantine-color-cyan-2)";
     color :=
       if isCR then "var(--mantine-color-orange-9)"
       else "var(--mantine-color-cyan-9)";
     padding := "2px 4px";
     borderRadius := "3px";
     fontWeight := 600 |}.

Definition hex_span (i : nat) (isCR : bool) (word : jsstring) : Span :=
  {| key := i;
     style := emphasis isCR;
     title :=
       if isCR then "Carriage Return (CR, \r, 0x0D)"
       else "Line Feed (LF, \n, 0x0A)";
     children := word |}.

Definition text_span (i : nat) (isCR : bool) : Span :=
  {| key := i;
     style := emphasis isCR;
     title :=
       if isCR then "Carriage Return (CR, \r)" else "Line Feed (LF, \n)";
     children := if isCR then lit "\r" else lit "\n" |}.

(** The body of the loop over [words]; [words[i]] is always in range. *)
Definition hex_body (words : list jsstring) (i : nat) (parts : list Part)
  : list Part :=
  match words !! i with
  | Some word =>
      let upperWord := toUpperCase word in
      if bool_decide (upperWord = lit "0D")
         || bool_decide (upperWord = lit "0A")
      then
        let isCR := bool_decide (upperWord = lit "0D") in
        parts ++ [PSpan (hex_span i isCR word)]
      else parts ++ [PText word]
  | None => parts
  end.

Definition highlight_hex (text : jsstring) : ReactNode :=
  let words := split_spaces text in
  let parts := for_loop (length words) (hex_body words) [] in
  if 0 <? length parts then RArray parts else RString text.

(** The body of the loop over the characters; the loop state is [parts]
    and [lastIndex]. *)
Definition text_body (text : jsstring) (i : nat) (st : list Part * nat)
  : list Part * nat :=
  let '(parts, lastIndex) := st in
  match text !! i with
  | Some char =>
      if (char =? CR)%N || (char =? LF)%N then
        let parts :=
          if lastIndex <? i
          then parts ++ [PText (substring text lastIndex i)]
          else parts in
        let isCR := (char =? CR)%N in
        (parts ++ [PSpan (text_span i isCR)], i + 1)
      else st
  | None => st
  end.

Definition highlight_text (text : jsstring) : ReactNode :=
  let '(parts, lastIndex) :=
    for_loop (length text) (text_body text) ([], 0) in
  let parts :=
    if lastIndex <? length text
    then parts ++ [PText (substring_from text lastIndex)]
    else parts in
  if 0 <? length parts then RArray parts else RString text.

Definition highlightLineEndings (text : jsstring) (format : DataFormat)
  : ReactNode :=
  match format with
  | hex => highlight_hex text
  | ascii | utf8 => highlight_text text
  | binary | decimal | base64 => RString text
  end.

End Highlighter.

Import Highlighter.


(** ** Reading the result back

    The notions the properties of the highlighter are stated with. *)

Module View.

(** The elements React renders for a node: a string is one text child. *)
Definition node_parts (r : ReactNode) : list Part :=
  match r with
  | RString s => [PText s]
  | RArray parts => parts
  end.

(** The text an element shows. *)
Definition part_text (p : Part) : jsstring :=
  match p with
  | PText s => s
  | PSpan sp => children sp
  end.

Definition node_text (r : ReactNode) : jsstring :=
  concat (map part_text (node_parts r)).

Definition is_span (p : Part) : bool :=
  match p with
  | PText _ => false
  | PSpan _ => true
  end.

Definition nonspace (w : jsstring) : Prop :=
  Forall (fun c => is_space c = false) w.

Definition allspace (w : jsstring) : Prop :=
  Forall (fun c => is_space c = true) w.

(** After a separator comes a token that is empty only at the end. *)
Definition inner_nonempty (l : list jsstring) : Prop :=
  match l with
  | w :: _ :: _ => w <> []
  | _ => True
  end.

(** A list of pieces that alternates between tokens free of white space
    and separators made of white space only, and ends with a token. *)
Inductive alternating : scan_mode -> list jsstring -> Prop :=
  | alt_last w :
      nonspace w -> alternating InWord [w]
  | alt_word w l :
      nonspace w -> alternating InSpace l -> alternating InWord (w :: l)
  | alt_space w l :
      w <> [] -> allspace w -> alternating InWord l -> inner_nonempty l ->
      alternating InSpace (w :: l).


(** What the loop over [words] pushes for the word at index [i]. *)
Definition hex_part (i : nat) (word : jsstring) : Part :=
  if bool_decide (toUpperCase word = lit "0D")
     || bool_decide (toUpperCase word = lit "0A")
  then PSpan (hex_span i (bool_decide (toUpperCase word = lit "0D")) word)
  else PText word.

Definition is_eol (c : char16) : bool := (c =? CR)%N || (c =? LF)%N.

(** The pending run of ordinary characters becomes a text element,
    unless it is empty. *)
Definition flush (acc : jsstring) : list Part :=
  match acc with
  | [] => []
  | _ => [PText acc]
  end.

(** The elements for the characters [s] that start at index [i], after
    the pending run [acc]: what one pass over the text emits. *)
Fixpoint text_parts (i : nat) (acc : jsstring) (s : jsstring) : list Part :=
  match s with
  | [] => flush acc
  | c :: s' =>
      if is_eol c
      then flush acc ++ PSpan (text_span i (c =? CR)%N)
                          :: text_parts (S i) [] s'
      else text_parts (S i) (acc ++ [c]) s'
  end.

(** The characters an element stands for: a span that shows the escape
    of CR stands for CR, the other span for LF. *)
Definition restore (p : Part) : jsstring :=
  match p with
  | PText s => s
  | PSpan sp =>
      if bool_decide (children sp = lit "\r") then [CR] else [LF]
  end.

(** The ordinary characters of an element: a span has none. *)
Definition plain_text (p : Part) : jsstring :=
  match p with
  | PText s => s
  | PSpan _ => []
  end.

Definition count_eol (s : jsstring) : nat :=
  length (List.filter is_eol s).

End View.

Import View.

(** ** The control flow of highlightLineEndings, one step at a time

    The states are the program points of the function with the values of
    its locals; a step is the entry branch, one loop iteration, or a loop
    exit with its [return]. *)

Module Machine.

Inductive state :=
  | Entry (text : jsstring) (format : DataFormat)
  | HexLoop (text : jsstring) (words : list jsstring) (i : nat)
      (parts : list Part)
  | TextLoop (text : jsstring) (i : nat) (parts : list Part)
      (lastIndex : nat)
  | Return (r : ReactNode).

Definition hex_return (text : jsstring) (parts : list Part) : ReactNode :=
  if 0 <? length parts then RArray parts else RString text.

Definition text_return (text : jsstring) (parts : list Part)
  (lastIndex : nat) : ReactNode :=
  let parts :=
    if lastIndex <? length text
    then parts ++ [PText (substring_from text lastIndex)]
    else parts in
  if 0 <? length parts then RArray parts else RString text.

Inductive step : state -> state -> Prop :=
  | step_enter_hex text :
      step (Entry text hex) (HexLoop text (split_spaces text) 0 [])
  | step_enter_text text format :
      format = ascii \/ format = utf8 ->
      step (Entry text format) (TextLoop text 0 [] 0)
  | step_enter_other text format :
      format <> hex -> format <> ascii -> format <> utf8 ->
      step (Entry text format) (Return (RString text))
  | step_hex_iter text words i parts :
      i < length words ->
      step (HexLoop text words i parts)
           (HexLoop text words (S i) (hex_body words i parts))
  | step_hex_exit text words i parts :
      length words <= i ->
      step (HexLoop text words i parts) (Return (hex_return text parts))
  | step_text_iter text i parts lastIndex :
      i < length text ->
      step (TextLoop text i parts lastIndex)
           (TextLoop text (S i)
              (fst (text_body text i (parts, lastIndex)))
              (snd (text_body text i (parts, lastIndex))))
  | step_text_exit text i parts lastIndex :
      length text <= i ->
      step (TextLoop text i parts lastIndex)
           (Return (text_return text parts lastIndex)).

(** Runs of a given number of steps. *)
Inductive steps : nat -> state -> state -> Prop :=
  | steps_O s : steps 0 s s
  | steps_S n s t u : step s t -> steps n t u -> steps (S n) s u.

(** The number of steps of the run on [text] and [format]: the entry
    branch, one step per loop iteration, and the exit. *)
Definition run_length (text : jsstring) (format : DataFormat) : nat :=
  match format with
  | hex => length (split_spaces text) + 2
  | ascii | utf8 => length text + 2
  | binary | decimal | base64 => 1
  end.

End Machine.

Import Machine.

(** ** highlightLineEndings with its arrays on the heap

    [const parts = []] and [text.split] create arrays, and [parts.push]
    writes into one of them.  Here the arrays live on a heap that holds
    whatever the program had created before the call, so that what the
    function reads and writes of the heap can be stated. *)

Module Store.

Inductive object :=
  | OWords (words : list jsstring)
  | OParts (parts : list Part).

(** A location is an index into the heap; a new object goes at the end. *)
Abbreviation heap := (list object) (only parsing).

Definition ST (A : Type) : Type := heap -> A * heap.

Definition alloc (o : object) : ST nat :=
  fun h => (length h, h ++ [o]).

(** [parts.push(p)] on the array at [l]. *)
Definition push (l : nat) (p : Part) : ST unit :=
  fun h =>
    (tt,
     match h !! l with
     | Some (OParts parts) => <[l := OParts (parts ++ [p])]> h
     | _ => h
     end).

Definition words_at (l : nat) (h : heap) : list jsstring :=
  match h !! l with
  | Some (OWords words) => words
  | _ => []
  end.

Definition parts_at (l : nat) (h : heap) : list Part :=
  match h !! l with
  | Some (OParts parts) => parts
  | _ => []
  end.

(** What the function returns: the text, or the reference to [parts]. *)
Inductive value :=
  | VString (s : jsstring)
  | VArray (l : nat).

(** The node a returned value denotes in a heap. *)
Definition node_of (v : value) (h : heap) : ReactNode :=
  match v with
  | VString s => RString s
  | VArray l => RArray (parts_at l h)
  end.

Definition hex_body_st (words parts : nat) (i : nat) (h : heap) : heap :=
  match words_at words h !! i with
  | Some word =>
      let upperWord := toUpperCase word in
      if bool_decide (upperWord = lit "0D")
         || bool_decide (upperWord = lit "0A")
      then
        let isCR := bool_decide (upperWord = lit "0D") in
        snd (push parts (PSpan (hex_span i isCR word)) h)
      else snd (push parts (PText word) h)
  | None => h
  end.

Definition highlight_hex_st (text : jsstring) : ST value :=
  fun h =>
    let '(parts, h) := alloc (OParts []) h in
    let '(words, h) := alloc (OWords (split_spaces text)) h in
    let h := for_loop (length (words_at words h)) (hex_body_st words parts) h in
    (if 0 <? length (parts_at parts h) then VArray parts else VString text, h).

Definition text_body_st (text : jsstring) (parts : nat) (i : nat)
  (st : heap * nat) : heap * nat :=
  let '(h, lastIndex) := st in
  match text !! i with
  | Some char =>
      if (char =? CR)%N || (char =? LF)%N then
        let h :=
          if lastIndex <? i
          then snd (push parts (PText (substring text lastIndex i)) h)
          else h in
        let isCR := (char =? CR)%N in
        (snd (push parts (PSpan (text_span i isCR)) h), i + 1)
      else st
  | None => st
  end.

Definition highlight_text_st (text : jsstring) : ST value :=
  fun h =>
    let '(parts, h) := alloc (OParts []) h in
    let '(h, lastIndex) :=
      for_loop (length text) (text_body_st text parts) (h, 0) in
    let h :=
      if lastIndex <? length text
      then snd (push parts (PText (substring_from text lastIndex)) h)
      else h in
    (if 0 <? length (parts_at parts h) then VArray parts else VString text, h).

Definition highlightLineEndings_st (text : jsstring) (format : DataFormat)
  : ST value :=
  match format with
  | hex => highlight_hex_st text
  | ascii | utf8 => highlight_text_st text
  | binary | decimal | base64 => fun h => (VString text, h)
  end.

End Store.

Import Store.

(** ** MessageItemComponent *)

(** What the component imports from the rest of the application and from
    the host: the format converter of [utils/formatConverter], the time
    format of [Date] and the message catalogue of [react-intl]. *)
Class Imports := {
  bytesToString : list N -> DataFormat -> jsstring;
  toLocaleTimeString : N -> jsstring;
  formatMessage : string -> jsstring
}.

(** The truth value JavaScript gives a value in a condition. *)
Class Truthy (A : Type) := truthy : A -> bool.

#[export] Instance truthy_bool : Truthy bool := fun b => b.
#[export] Instance truthy_string : Truthy (list N) :=
  fun s => match s with [] => false | _ => true end.
#[export] Instance truthy_format : Truthy DataFormat := fun _ => true.
#[export] Instance truthy_config : Truthy SerialConnectionConfig :=
  fun _ => true.
(** An optional property that is absent is [undefined]. *)
#[export] Instance truthy_option {A : Type} `{Truthy A} : Truthy (option A) :=
  fun o => match o with Some a => truthy a | None => false end.

Module MessageItem.

(** A function passed as [onResend], known by its identity. *)
Inductive Callback := callback (name : nat).

#[export] Instance truthy_callback : Truthy Callback := fun _ => true.

Record MessageItemProps := {
  message : SerialMessage;
  onResend : option Callback;
  isConnected : option bool;
  currentConfig : option SerialConnectionConfig;
  displayFormat : option DataFormat
}.

(** A value thrown, or the reason of a rejected promise. *)
Inductive JsError := js_error (reason : jsstring).

Inductive ConsoleEntry := console_error_entry (tag : string) (err : JsError).

(** One invocation of [onResend] with its three arguments. *)
Record ResendCall := {
  call_target : Callback;
  call_data : jsstring;
  call_format : DataFormat;
  call_config : SerialConnectionConfig
}.

(** Everything a handler of the component can reach: the props with the
    message object and the configuration they refer to, the state of
    [useState], the clipboard, the console, the calls made to
    [onResend], and the propagation flag of the event being handled. *)
Record World := {
  props : MessageItemProps;
  isHovered : bool;
  clipboard : jsstring;
  console : list ConsoleEntry;
  resends : list ResendCall;
  propagationStopped : bool
}.

(** *** Handlers as computations over the world that may throw *)

Inductive Outcome (A : Type) :=
  | Fulfilled (a : A)
  | Rejected (err : JsError).
Arguments Fulfilled {A} a.
Arguments Rejected {A} err.

Definition M (A : Type) : Type := World -> Outcome A * World.

Definition ret {A : Type} (a : A) : M A := fun w => (Fulfilled a, w).

Definition bind {A B : Type} (m : M A) (k : A -> M B) : M B :=
  fun w =>
    match m w with
    | (Fulfilled a, w') => k a w'
    | (Rejected err, w') => (Rejected err, w')
    end.

(** [try { body } catch (err) { handler }], also around an [await]. *)
Definition try_catch {A : Type} (body : M A) (handler : JsError -> M A)
  : M A :=
  fun w =>
    match body w with
    | (Fulfilled a, w') => (Fulfilled a, w')
    | (Rejected err, w') => handler err w'
    end.

(** [m; k] for statements in sequence. *)
Definition andThen {A B : Type} (m : M A) (k : M B) : M B :=
  bind m (fun _ => k).

Definition get_props : M MessageItemProps :=
  fun w => (Fulfilled (props w), w).

Definition setIsHovered (b : bool) : M unit :=
  fun w =>
    (Fulfilled tt,
     {| props := props w; isHovered := b; clipboard := clipboard w;
        console := console w; resends := resends w;
        propagationStopped := propagationStopped w |}).

Definition stopPropagation : M unit :=
  fun w =>
    (Fulfilled tt,
     {| props := props w; isHovered := isHovered w;
        clipboard := clipboard w; console := console w;
        resends := resends w; propagationStopped := true |}).

Definition begin_event : M unit :=
  fun w =>
    (Fulfilled tt,
     {| props := props w; isHovered := isHovered w;
        clipboard := clipboard w; console := console w;
        resends := resends w; propagationStopped := false |}).

(** [await navigator.clipboard.writeText(text)].  Whether the host
    grants the write is not up to the component: [denied] is the reason
    of the rejection, if the host rejects. *)
Definition clipboard_writeText (denied : option JsError) (text : jsstring)
  : M unit :=
  fun w =>
    match denied with
    | Some err => (Rejected err, w)
    | None =>
        (Fulfilled tt,
         {| props := props w; isHovered := isHovered w; clipboard := text;
            console := console w; resends := resends w;
            propagationStopped := propagationStopped w |})
    end.

Definition console_error (tag : string) (err : JsError) : M unit :=
  fun w =>
    (Fulfilled tt,
     {| props := props w; isHovered := isHovered w;
        clipboard := clipboard w;
        console := console w ++ [console_error_entry tag err];
        resends := resends w;
        propagationStopped := propagationStopped w |}).

(** A call of the [onResend] prop.  The promise it returns is dropped
    by the caller. *)
Definition call_onResend (f : Callback) (data : jsstring)
  (fmt : DataFormat) (config : SerialConnectionConfig) : M unit :=
  fun w =>
    (Fulfilled tt,
     {| props := props w; isHovered := isHovered w;
        clipboard := clipboard w; console := console w;
        resends := resends w ++
          [{| call_target := f; call_data := data; call_format := fmt;
              call_config := config |}];
        propagationStopped := propagationStopped w |}).

(** *** The values computed from the props

    [useMemo] and [useCallback] recompute a value when one of the listed
    dependencies changes, and every value below lists all it reads; so
    each is its defining expression on the current props. *)

Definition formatToUse (p : MessageItemProps) : DataFormat :=
  match displayFormat p with
  | Some d => if truthy d then d else format (message p)
  | None => format (message p)
  end.

Definition displayText_of `{Imports} (p : MessageItemProps) : jsstring :=
  bytesToString (data (message p)) (formatToUse p).

Definition highlightedText `{Imports} (p : MessageItemProps) : ReactNode :=
  highlightLineEndings (displayText_of p) (formatToUse p).

Definition isSent (p : MessageItemProps) : bool :=
  match type (message p) with
  | sent => true
  | received => false
  end.

(** Only the truth value of [canResend] is ever used. *)
Definition canResend (p : MessageItemProps) : bool :=
  isSent p && truthy (isConnected p) && truthy (originalData (message p))
  && truthy (onResend p) && truthy (currentConfig p).

Definition handleClick : M unit :=
  fun w =>
    let p := props w in
    if canResend p && truthy (originalData (message p))
       && truthy (onResend p) && truthy (currentConfig p)
    then
      match originalData (message p), onResend p, currentConfig p with
      | Some original, Some f, Some config =>
          call_onResend f original (format (message p)) config w
      | _, _, _ => (Fulfilled tt, w)
      end
    else (Fulfilled tt, w).

Definition handleCopy `{Imports} (denied : option JsError) : M unit :=
  andThen stopPropagation
    (bind get_props (fun p =>
       try_catch
         (clipboard_writeText denied (displayText_of p))
         (fun err =>
            console_error "[MessageHistory] Failed to copy:" err))).

(** *** The rendered element *)

Inductive Icon := IconArrowLeft | IconArrowRight.

Record View := {
  box_onClick : bool;
  box_cursor : string;
  direction_icon : Icon;
  direction_color : string;
  time_text : jsstring;
  code_background : string;
  code_children : ReactNode;
  copy_title : jsstring;
  copy_opacity : nat;
  copy_pointerEvents : string
}.

Definition render `{Imports} : M View :=
  fun w =>
    let p := props w in
    (Fulfilled
       {| box_onClick := canResend p;
          box_cursor := if canResend p then "pointer" else "default";
          direction_icon :=
            if isSent p then IconArrowLeft else IconArrowRight;
          direction_color :=
            if isSent p then "var(--mantine-color-blue-6)"
            else "var(--mantine-color-green-6)";
          time_text := toLocaleTimeString (timestamp (message p));
          code_background :=
            if isSent p then "var(--mantine-color-blue-0)"
            else "var(--mantine-color-green-0)";
          code_children := highlightedText p;
          copy_title := formatMessage "common.copy";
          copy_opacity := if isHovered w then 1 else 0;
          copy_pointerEvents := if isHovered w then "auto" else "none" |},
     w).

(** *** Events

    A click on the box runs [handleClick] when it is attached.  A click on
    the copy icon runs [handleCopy] and then bubbles to the box unless the
    handler stopped it.  The pointer entering and leaving the box set
    the hover state. *)
Inductive Event :=
  | ClickBox
  | ClickCopy (denied : option JsError)
  | MouseEnter
  | MouseLeave.

Definition box_click : M unit :=
  fun w => if canResend (props w) then handleClick w else (Fulfilled tt, w).

Definition bubble_to_box : M unit :=
  fun w =>
    if propagationStopped w then (Fulfilled tt, w) else box_click w.

(** React calls a handler and drops what it returns, also the promise
    of an [async] handler. *)
Definition fire {A : Type} (handler : M A) : M unit :=
  fun w => (Fulfilled tt, snd (handler w)).

Definition dispatch `{Imports} (ev : Event) : M unit :=
  match ev with
  | ClickBox => andThen begin_event box_click
  | ClickCopy denied =>
      andThen begin_event
        (andThen (fire (handleCopy denied)) bubble_to_box)
  | MouseEnter => setIsHovered true
  | MouseLeave => setIsHovered false
  end.

(** Everything the component does: it renders and it handles events. *)
Inductive Operation :=
  | Render
  | Handle (ev : Event).

Definition run `{Imports} (op : Operation) (w : World) : World :=
  match op with
  | Render => snd (render w)
  | Handle ev => snd (dispatch ev w)
  end.

(** *** Notions for the properties of the handlers *)

(** A computation that leaves the props, and so the message, alone. *)
Definition preserves_props {A : Type} (m : M A) : Prop :=
  forall w, props (snd (m w)) = props w.

(** A call of [onResend] that the props license: the message was sent
    and carries the original input, the connection is active, there is a
    configuration, and the call passes that input, the format of the
    message and that configuration to the function of the props. *)
Definition resend_allowed (p : MessageItemProps) (c : ResendCall) : Prop :=
  type (message p) = sent /\
  originalData (message p) = Some (call_data c) /\
  isConnected p = Some true /\
  currentConfig p = Some (call_config c) /\
  onResend p = Some (call_target c) /\
  call_format c = format (message p).

(** A computation that makes no call of [onResend], or one licensed
    call. *)
Definition resends_at_most_once {A : Type} (m : M A) : Prop :=
  forall w,
    resends (snd (m w)) = resends w \/
    exists c, resends (snd (m w)) = resends w ++ [c] /\
              resend_allowed (props w) c.

End MessageItem.

Import MessageItem.

(** ** Sample values for the examples *)

Module Sample.

Definition hex_digit (n : N) : N :=
  if (n <? 10)%N then (48 + n)%N else (87 + n)%N.

(** A stand-in for the format converter: hex pairs separated by spaces,
    the bytes themselves as characters for the text formats, and nothing
    for the formats the examples do not use. *)
Definition sample_bytesToString (bytes : list N) (fmt : DataFormat)
  : jsstring :=
  match fmt with
  | hex =>
      concat (imap (fun i b =>
                      (if i is 0 then [] else [32%N]) ++
                      [hex_digit (b / 16); hex_digit (b mod 16)])
                   bytes)
  | ascii | utf8 => bytes
  | binary | decimal | base64 => []
  end.

Definition sample_imports : Imports :=
  {| bytesToString := sample_bytesToString;
     toLocaleTimeString := fun _ => lit "12:00:00";
     formatMessage := fun _ => lit "Copy" |}.

Definition sample_config : SerialConnectionConfig :=
  {| baudRate := 9600; lineEnding := crlf; customLineEnding := None;
     readUntilLineEnding := None; readLineEnding := None;
     readCustomLineEnding := None |}.

Definition sample_message : SerialMessage :=
  {| id := lit "m1"; type := sent; data := [65; 84; 13; 10]%N;
     timestamp := 0; format := ascii; displayText := lit "AT";
     originalData := Some (lit "AT") |}.

Definition sample_props : MessageItemProps :=
  {| message := sample_message; onResend := Some (callback 0);
     isConnected := Some true; currentConfig := Some sample_config;
     displayFormat := Some hex |}.

Definition sample_world : World :=
  {| props := sample_props; isHovered := false; clipboard := [];
     console := []; resends := []; propagationStopped := false |}.

End Sample.

Import Sample.

(** ** The comparison function of [React.memo] *)

Module Memo.

#[export] Instance DataFormat_eq_dec : EqDecision DataFormat.
Proof. solve_decision. Defined.

#[export] Instance MessageType_eq_dec : EqDecision MessageType.
Proof. solve_decision. Defined.

#[export] Instance Callback_eq_dec : EqDecision Callback.
Proof. solve_decision. Defined.

(** [===] compares strings, booleans and [undefined] by value and objects
    by identity.  Whether the byte array, the date and the configuration
    of the next props are the objects of the previous props is a fact of
    the heap, given here beside the props. *)
Record SameObject := {
  same_data : bool;
  same_timestamp : bool;
  same_config : bool
}.

(** References to one object see the same contents. *)
Definition references_agree (same : SameObject)
  (prevProps nextProps : MessageItemProps) : Prop :=
  (same_data same = true ->
   data (message prevProps) = data (message nextProps)) /\
  (same_timestamp same = true ->
   timestamp (message prevProps) = timestamp (message nextProps)) /\
  (same_config same = true ->
   currentConfig prevProps = currentConfig nextProps).

(** The second argument of [React.memo]: [true] lets React keep the
    previous rendering. *)
Definition arePropsEqual (same : SameObject)
  (prevProps nextProps : MessageItemProps) : bool :=
  bool_decide (id (message prevProps) = id (message nextProps))
  && same_data same
  && bool_decide (format (message prevProps) = format (message nextProps))
  && bool_decide (type (message prevProps) = type (message nextProps))
  && same_timestamp same
  && bool_decide (originalData (message prevProps)
                  = originalData (message nextProps))
  && bool_decide (displayFormat prevProps = displayFormat nextProps)
  && bool_decide (isConnected prevProps = isConnected nextProps)
  && bool_decide (onResend prevProps = onResend nextProps)
  && match currentConfig prevProps, currentConfig nextProps with
     | None, None => true
     | Some _, Some _ => same_config same
     | _, _ => false
     end.

(** The props agree on everything the component reads. *)
Definition same_inputs (p q : MessageItemProps) : Prop :=
  type (message p) = type (message q) /\
  data (message p) = data (message q) /\
  timestamp (message p) = timestamp (message q) /\
  format (message p) = format (message q) /\
  originalData (message p) = originalData (message q) /\
  onResend p = onResend q /\
  isConnected p = isConnected q /\
  currentConfig p = currentConfig q /\
  displayFormat p = displayFormat q.

Definition with_props (p : MessageItemProps) (w : World) : World :=
  {| props := p; isHovered := isHovered w; clipboard := clipboard w;
     console := console w; resends := resends w;
     propagationStopped := propagationStopped w |}.

(** The props with another identifier and another stored text in the
    message. *)
Definition relabel (newId newText : jsstring) (p : MessageItemProps)
  : MessageItemProps :=
  {| message :=
       {| id := newId; type := type (message p); data := data (message p);
          timestamp := timestamp (message p); format := format (message p);
          displayText := newText;
          originalData := originalData (message p) |};
     onResend := onResend p; isConnected := isConnected p;
     currentConfig := currentConfig p; displayFormat := displayFormat p |}.

End Memo.

Import Memo.

(** ** Runs of events *)

Module Session.

Definition run_events `{Imports} (evs : list Event) (w : World) : World :=
  fold_left (fun w ev => run (Handle ev) w) evs w.

(** The call a click on the box makes, if it makes one. *)
Definition resend_call_of (p : MessageItemProps) : option ResendCall :=
  if canResend p then
    match originalData (message p), onResend p, currentConfig p with
    | Some original, Some f, Some config =>
        Some {| call_target := f; call_data := original;
                call_format := format (message p); call_config := config |}
    | _, _, _ => None
    end
  else None.

Definition box_clicks (evs : list Event) : nat :=
  length (List.filter (fun ev => match ev with ClickBox => true | _ => false end)
            evs).

Definition denied_copies (evs : list Event) : list JsError :=
  flat_map (fun ev => match ev with ClickCopy (Some err) => [err] | _ => [] end)
    evs.

Definition granted_copy (evs : list Event) : bool :=
  existsb (fun ev => match ev with ClickCopy None => true | _ => false end) evs.

Definition last_hover (evs : list Event) (init : bool) : bool :=
  fold_left (fun h ev =>
               match ev with
               | MouseEnter => true
               | MouseLeave => false
               | _ => h
               end) evs init.

End Session.

Import Session.

(** ** More ways to read the result of the highlighter *)

Module Keys.

(** The React keys of the spans, in order. *)
Definition span_keys (parts : list Part) : list nat :=
  flat_map (fun p => match p with PSpan sp => [key sp] | PText _ => [] end)
    parts.

(** The indices of the CR and LF characters of [s], which starts at
    index [i]. *)
Fixpoint eol_positions (i : nat) (s : jsstring) : list nat :=
  match s with
  | [] => []
  | c :: s' =>
      if is_eol c then i :: eol_positions (S i) s' else eol_positions (S i) s'
  end.

(** No text element follows a text element. *)
Fixpoint no_adjacent_text (parts : list Part) : Prop :=
  match parts with
  | [] => True
  | p :: rest =>
      match p, rest with
      | PText _, PText _ :: _ => False
      | _, _ => True
      end /\ no_adjacent_text rest
  end.

(** Each span sits in the array at the index that is its key, offset by
    [k]. *)
Definition keyed_by_index (k : nat) (parts : list Part) : Prop :=
  forall i sp, parts !! i = Some (PSpan sp) -> key sp = k + i.

(** A list of numbers that grows strictly and starts at [k] or above. *)
Fixpoint increasing_from (k : nat) (l : list nat) : Prop :=
  match l with
  | [] => True
  | x :: rest => k <= x /\ increasing_from (S x) rest
  end.

End Keys.

Import Keys.
(** ** The definitions on concrete inputs *)

Example split_example :
  split_spaces (lit "ff 0d  0a") =
  [lit "ff"; lit " "; lit "0d"; lit "  "; lit "0a"].
Proof. reflexivity. Qed.

Example split_edges :
  split_spaces (lit " a ") = [[]; lit " "; lit "a"; lit " "; []].
Proof. reflexivity. Qed.

Example upper_example : toUpperCase (lit "0d f") = lit "0D F".
Proof. reflexivity. Qed.

Example highlight_hex_example :
  highlightLineEndings (lit "ff 0d 0A") hex =
  RArray [PText (lit "ff"); PText (lit " ");
          PSpan (hex_span 2 true (lit "0d")); PText (lit " ");
          PSpan (hex_span 4 false (lit "0A"))].
Proof. reflexivity. Qed.

Example highlight_text_example :
  highlightLineEndings [79; 75; CR; LF; 62]%N ascii =
  RArray [PText (lit "OK"); PSpan (text_span 2 true);
          PSpan (text_span 3 false); PText (lit ">")].
Proof. reflexivity. Qed.


Example highlight_hex_substring :
  highlightLineEndings (lit "F0D 0A0D") hex =
  RArray [PText (lit "F0D"); PText (lit " "); PText (lit "0A0D")].
Proof. reflexivity. Qed.

Example sample_render :
  fst (render (H := sample_imports) sample_world) =
  Fulfilled
    {| box_onClick := true;
       box_cursor := "pointer";
       direction_icon := IconArrowLeft;
       direction_color := "var(--mantine-color-blue-6)";
       time_text := lit "12:00:00";
       code_background := "var(--mantine-color-blue-0)";
       code_children :=
         RArray [PText (lit "41"); PText (lit " "); PText (lit "54");
                 PText (lit " "); PSpan (hex_span 4 true (lit "0d"));
                 PText (lit " "); PSpan (hex_span 6 false (lit "0a"))];
       copy_title := lit "Copy";
       copy_opacity := 0;
       copy_pointerEvents := "none" |}.
Proof. reflexivity. Qed.

Example sample_click_resends :
  resends (run (H := sample_imports) (Handle ClickBox) sample_world) =
  [{| call_target := callback 0; call_data := lit "AT";
      call_format := ascii; call_config := sample_config |}].
Proof. reflexivity. Qed.

Example sample_copy_does_not_resend :
  run (H := sample_imports) (Handle (ClickCopy None)) sample_world =
  {| props := sample_props; isHovered := false;
     clipboard := lit "41 54 0d 0a"; console := []; resends := [];
     propagationStopped := true |}.
Proof. reflexivity. Qed.
(** ** Facts about the built-ins *)

Section Builtins.

Lemma for_loop_S {St : Type} (n : nat) (body : nat -> St -> St) init :
  for_loop (S n) body init = body n (for_loop n body init).
Proof.
  unfold for_loop. rewrite seq_S, fold_left_app. reflexivity.
Qed.

Lemma substring_snoc (text : jsstring) (a i : nat) (c : char16) :
  a <= i -> text !! i = Some c ->
  substring text a (S i) = substring text a i ++ [c].
Proof.
  intros Hle Hc. unfold substring.
  replace (S i - a) with (S (i - a)) by lia.
  apply take_S_r. rewrite lookup_drop.
  replace (a + (i - a)) with i by lia. exact Hc.
Qed.

Lemma substring_all (text : jsstring) (a : nat) :
  substring text a (length text) = substring_from text a.
Proof.
  unfold substring, substring_from.
  apply take_ge. rewrite length_drop. lia.
Qed.

Lemma substring_empty (text : jsstring) (a b : nat) :
  b <= a -> substring text a b = [].
Proof.
  intros H. unfold substring. replace (b - a) with 0 by lia. reflexivity.
Qed.

Lemma substring_nonempty (text : jsstring) (a b : nat) :
  a < b -> b <= length text -> substring text a b <> [].
Proof.
  intros Hab Hb Hnil. apply (f_equal length) in Hnil.
  unfold substring in Hnil. rewrite length_take, length_drop in Hnil.
  simpl in Hnil. lia.
Qed.

End Builtins.

(** Turn the boolean tests on code units into arithmetic facts. *)
Ltac unit_tests :=
  repeat match goal with
    | H : (_ && _) = true |- _ => apply andb_true_iff in H; destruct H
    | H : (_ && _) = false |- _ => apply andb_false_iff in H; destruct H
    | H : (_ || _) = true |- _ => apply orb_true_iff in H; destruct H
    | H : (_ || _) = false |- _ => apply orb_false_iff in H; destruct H
    | H : negb _ = true |- _ => apply negb_true_iff in H
    | H : negb _ = false |- _ => apply negb_false_iff in H
    | H : (_ <=? _)%N = true |- _ => apply N.leb_le in H
    | H : (_ <=? _)%N = false |- _ => apply N.leb_gt in H
    | H : (_ =? _)%N = true |- _ => apply N.eqb_eq in H
    | H : (_ =? _)%N = false |- _ => apply N.eqb_neq in H
    end.

Section UpperCase.

Lemma upper_unit_nonempty c : upper_unit c <> [].
Proof. unfold upper_unit. repeat case_match; discriminate. Qed.

(** The only code unit whose capital starts with the digit 0 is 0. *)
Lemma upper_unit_digit0 c r :
  upper_unit c = 48%N :: r -> c = 48%N /\ r = [].
Proof.
  unfold upper_unit.
  repeat case_match; intros E; simplify_eq; unit_tests; split;
    solve [reflexivity | lia].
Qed.

(** A capital D comes from d or D, a capital A from a or A. *)
Lemma upper_unit_D c r :
  upper_unit c = 68%N :: r -> (c = 68%N \/ c = 100%N) /\ r = [].
Proof.
  unfold upper_unit.
  repeat case_match; intros E; simplify_eq; unit_tests; split;
    solve [reflexivity | lia].
Qed.

Lemma upper_unit_A c r :
  upper_unit c = 65%N :: r -> (c = 65%N \/ c = 97%N) /\ r = [] \/ r = [702%N].
Proof.
  unfold upper_unit.
  repeat case_match; intros E; simplify_eq; unit_tests;
    solve [right; reflexivity | left; split; solve [reflexivity | lia]].
Qed.

Lemma toUpperCase_nil_inv w : toUpperCase w = [] -> w = [].
Proof.
  destruct w as [|c w]; [reflexivity|].
  unfold toUpperCase. simpl. intros E.
  apply app_eq_nil in E. destruct E as [E _].
  exfalso. exact (upper_unit_nonempty c E).
Qed.

Lemma toUpperCase_0D w :
  toUpperCase w = lit "0D" <-> w = lit "0D" \/ w = lit "0d".
Proof.
  split.
  - destruct w as [|c [|d w]]; [discriminate| |].
    + unfold toUpperCase. simpl. rewrite app_nil_r.
      intros E. apply upper_unit_digit0 in E. destruct E; discriminate.
    + unfold toUpperCase. simpl. intros E.
      destruct (upper_unit c) as [|x r] eqn:Ec;
        [exfalso; exact (upper_unit_nonempty c Ec)|].
      change (lit "0D") with [48%N; 68%N] in E.
      injection E as -> E.
      apply upper_unit_digit0 in Ec. destruct Ec as [-> ->].
      simpl in E.
      destruct (upper_unit d) as [|y r] eqn:Ed;
        [exfalso; exact (upper_unit_nonempty d Ed)|].
      injection E as -> E.
      apply upper_unit_D in Ed. destruct Ed as [Hd ->].
      apply (toUpperCase_nil_inv w) in E. subst w.
      destruct Hd as [-> | ->]; [left | right]; reflexivity.
  - intros [-> | ->]; reflexivity.
Qed.

Lemma toUpperCase_0A w :
  toUpperCase w = lit "0A" <-> w = lit "0A" \/ w = lit "0a".
Proof.
  split.
  - destruct w as [|c [|d w]]; [discriminate| |].
    + unfold toUpperCase. simpl. rewrite app_nil_r.
      intros E. apply upper_unit_digit0 in E. destruct E; discriminate.
    + unfold toUpperCase. simpl. intros E.
      destruct (upper_unit c) as [|x r] eqn:Ec;
        [exfalso; exact (upper_unit_nonempty c Ec)|].
      change (lit "0A") with [48%N; 65%N] in E.
      injection E as -> E.
      apply upper_unit_digit0 in Ec. destruct Ec as [-> ->].
      simpl in E.
      destruct (upper_unit d) as [|y r] eqn:Ed;
        [exfalso; exact (upper_unit_nonempty d Ed)|].
      injection E as -> E.
      apply upper_unit_A in Ed. destruct Ed as [[Hd ->] | ->]; [|discriminate].
      apply (toUpperCase_nil_inv w) in E. subst w.
      destruct Hd as [-> | ->]; [left | right]; reflexivity.
  - intros [-> | ->]; reflexivity.
Qed.

End UpperCase.

(** ** The split on white space *)

Section Split.

Lemma scan_concat s : forall m acc, concat (scan m acc s) = acc ++ s.
Proof.
  induction s as [|c s IH]; intros m acc.
  - destruct m; simpl; rewrite ?app_nil_r; reflexivity.
  - simpl. destruct m, (is_space c); simpl; rewrite IH;
      rewrite <- ?app_assoc; reflexivity.
Qed.

Lemma split_spaces_concat text : concat (split_spaces text) = text.
Proof. unfold split_spaces. rewrite scan_concat. reflexivity. Qed.

Lemma scan_word_head s :
  forall acc, exists w l, scan InWord acc s = (acc ++ w) :: l.
Proof.
  induction s as [|c s IH]; intros acc; simpl.
  - exists [], []. rewrite app_nil_r. reflexivity.
  - destruct (is_space c).
    + exists [], (scan InSpace [c] s). rewrite app_nil_r. reflexivity.
    + destruct (IH (acc ++ [c])) as (w & l & E).
      exists (c :: w), l. rewrite E, <- app_assoc. reflexivity.
Qed.

Lemma scan_word_inner s c : inner_nonempty (scan InWord [c] s).
Proof.
  destruct (scan_word_head s [c]) as (w & l & E). rewrite E.
  destruct l; simpl; [exact I | discriminate].
Qed.

Lemma scan_alternating s :
  (forall acc, nonspace acc -> alternating InWord (scan InWord acc s)) /\
  (forall acc, acc <> [] -> allspace acc ->
               alternating InSpace (scan InSpace acc s)).
Proof.
  induction s as [|c s [IHw IHs]]; split; intros acc.
  - intros Hacc. simpl. constructor. exact Hacc.
  - intros Hne Hacc. simpl. constructor; try assumption.
    + constructor. constructor.
    + exact I.
  - intros Hacc. simpl. destruct (is_space c) eqn:Hc.
    + apply alt_word; [exact Hacc|].
      apply IHs; [discriminate|]. constructor; [exact Hc | constructor].
    + apply IHw. apply Forall_app. split; [exact Hacc|].
      constructor; [exact Hc | constructor].
  - intros Hne Hacc. simpl. destruct (is_space c) eqn:Hc.
    + apply IHs.
      * destruct acc; discriminate.
      * apply Forall_app. split; [exact Hacc|].
        constructor; [exact Hc | constructor].
    + apply alt_space; try assumption.
      * apply IHw. constructor; [exact Hc | constructor].
      * apply scan_word_inner.
Qed.

Lemma split_spaces_alternating text :
  alternating InWord (split_spaces text).
Proof. apply scan_alternating. constructor. Qed.

Lemma split_spaces_nonempty text : 0 < length (split_spaces text).
Proof.
  unfold split_spaces.
  destruct (scan_word_head text []) as (w & l & E). rewrite E.
  simpl. lia.
Qed.




End Split.

(** ** The loop over the words of a hex text *)

Section HexLoop.

Lemma hex_body_push words i word parts :
  words !! i = Some word ->
  hex_body words i parts = parts ++ [hex_part i word].
Proof.
  intros Hw. unfold hex_body, hex_part. rewrite Hw. simpl.
  destruct (bool_decide (toUpperCase word = lit "0D")
            || bool_decide (toUpperCase word = lit "0A")); reflexivity.
Qed.

Lemma hex_loop_prefix words n :
  n <= length words ->
  for_loop n (hex_body words) [] = imap hex_part (take n words).
Proof.
  induction n as [|n IH]; intros Hn.
  - reflexivity.
  - destruct (lookup_lt_is_Some_2 words n) as [word Hw]; [lia|].
    rewrite for_loop_S, IH by lia.
    rewrite (hex_body_push _ _ _ _ Hw).
    rewrite (take_S_r _ _ _ Hw), imap_app. simpl.
    rewrite length_take, Nat.min_l by lia.
    rewrite Nat.add_0_r. reflexivity.
Qed.

Lemma hex_loop_all words :
  for_loop (length words) (hex_body words) [] = imap hex_part words.
Proof.
  rewrite hex_loop_prefix by lia. rewrite firstn_all. reflexivity.
Qed.

Lemma highlight_hex_parts text :
  highlightLineEndings text hex = RArray (imap hex_part (split_spaces text)).
Proof.
  simpl. unfold highlight_hex. rewrite hex_loop_all.
  rewrite length_imap.
  pose proof (split_spaces_nonempty text) as Hlen.
  destruct (Nat.ltb_spec 0 (length (split_spaces text))); [reflexivity|lia].
Qed.

Lemma hex_parts_lookup text i word :
  split_spaces text !! i = Some word ->
  node_parts (highlightLineEndings text hex) !! i = Some (hex_part i word).
Proof.
  intros Hw. rewrite highlight_hex_parts. simpl.
  rewrite list_lookup_imap, Hw. reflexivity.
Qed.

Lemma hex_part_CR i word :
  toUpperCase word = lit "0D" ->
  hex_part i word = PSpan (hex_span i true word).
Proof.
  intros E. unfold hex_part. rewrite E. reflexivity.
Qed.

Lemma hex_part_LF i word :
  toUpperCase word = lit "0A" ->
  hex_part i word = PSpan (hex_span i false word).
Proof.
  intros E. unfold hex_part. rewrite E. reflexivity.
Qed.


Lemma hex_part_text i word : part_text (hex_part i word) = word.
Proof.
  unfold hex_part.
  destruct (bool_decide (toUpperCase word = lit "0D")
            || bool_decide (toUpperCase word = lit "0A")); reflexivity.
Qed.


Lemma hex_text_preserved text :
  node_text (highlightLineEndings text hex) = text.
Proof.
  unfold node_text. rewrite highlight_hex_parts. simpl.
  rewrite <- (split_spaces_concat text) at 2.
  f_equal. generalize (split_spaces text) as words.
  intros words. apply list_eq. intros i.
  rewrite list_lookup_fmap, list_lookup_imap.
  destruct (words !! i) as [w|]; simpl;
    rewrite ?hex_part_text; reflexivity.
Qed.

End HexLoop.



(** ** The loop over the characters of a text *)

Section TextLoop.

Lemma is_eol_spec c : is_eol c = true <-> c = CR \/ c = LF.
Proof.
  unfold is_eol. rewrite orb_true_iff, !N.eqb_eq. reflexivity.
Qed.

Lemma flush_nonempty acc : acc <> [] -> flush acc = [PText acc].
Proof. destruct acc; [congruence | reflexivity]. Qed.

(** After [n] iterations the loop has emitted [parts] and the run since
    [lastIndex] is still pending. *)
Lemma text_loop_invariant text n :
  n <= length text ->
  exists parts lastIndex,
    for_loop n (text_body text) ([], 0) = (parts, lastIndex) /\
    lastIndex <= n /\
    text_parts 0 [] text =
      parts ++ text_parts n (substring text lastIndex n) (drop n text).
Proof.
  induction n as [|n IH]; intros Hn.
  - exists [], 0. split; [reflexivity|]. split; [lia|]. reflexivity.
  - destruct IH as (parts & lastIndex & Hloop & Hle & Hspec); [lia|].
    destruct (lookup_lt_is_Some_2 text n) as [c Hc]; [lia|].
    rewrite for_loop_S, Hloop. unfold text_body. rewrite Hc.
    rewrite (drop_S _ _ _ Hc) in Hspec. simpl in Hspec.
    fold (is_eol c). destruct (is_eol c).
    + eexists _, _. split; [reflexivity|]. split; [lia|].
      rewrite Hspec, (substring_empty text (n + 1) (S n)) by lia.
      replace (n + 1) with (S n) by lia.
      destruct (Nat.ltb_spec lastIndex n) as [Hlt | Hge].
      * rewrite (flush_nonempty (substring text lastIndex n))
          by (apply substring_nonempty; lia).
        rewrite <- !app_assoc. reflexivity.
      * rewrite (substring_empty text lastIndex n) by lia.
        simpl. rewrite <- app_assoc. reflexivity.
    + exists parts, lastIndex. split; [reflexivity|]. split; [lia|].
      rewrite Hspec, (substring_snoc text lastIndex n c) by (lia || exact Hc).
      reflexivity.
Qed.

Lemma text_parts_nil_inv s : forall i acc,
  text_parts i acc s = [] -> acc = [] /\ s = [].
Proof.
  induction s as [|c s IH]; intros i acc; simpl.
  - destruct acc; [intros _; split; reflexivity | discriminate].
  - destruct (is_eol c).
    + intros E. apply app_eq_nil in E. destruct E; discriminate.
    + intros E. apply IH in E. destruct E as [E _].
      destruct acc; discriminate.
Qed.

Lemma highlight_text_spec text :
  highlight_text text =
  match text_parts 0 [] text with
  | [] => RString text
  | parts => RArray parts
  end.
Proof.
  unfold highlight_text.
  destruct (text_loop_invariant text (length text)) as
    (parts & lastIndex & Hloop & Hle & Hspec); [lia|].
  rewrite Hloop, Hspec, substring_all, drop_all. simpl.
  unfold substring_from.
  destruct (Nat.ltb_spec lastIndex (length text)) as [Hlt | Hge].
  - rewrite flush_nonempty.
    2:{ intros E. apply (f_equal length) in E.
        rewrite length_drop in E. simpl in E. lia. }
    rewrite length_app. simpl.
    destruct (Nat.ltb_spec 0 (length parts + 1)); [|lia].
    destruct parts; reflexivity.
  - rewrite drop_ge by lia. simpl. rewrite app_nil_r.
    destruct parts; reflexivity.
Qed.

Lemma text_node_parts text :
  node_parts (highlight_text text) =
  match text with
  | [] => [PText []]
  | _ => text_parts 0 [] text
  end.
Proof.
  rewrite highlight_text_spec.
  destruct (text_parts 0 [] text) as [|p ps] eqn:E.
  - apply text_parts_nil_inv in E. destruct E as [_ ->]. reflexivity.
  - destruct text; [discriminate | reflexivity].
Qed.

End TextLoop.

(** ** What one pass over a text emits *)

Section TextParts.

Lemma restore_flush acc : concat (map restore (flush acc)) = acc.
Proof. destruct acc; simpl; rewrite ?app_nil_r; reflexivity. Qed.

Lemma restore_text_span i c :
  is_eol c = true -> restore (PSpan (text_span i (c =? CR)%N)) = [c].
Proof.
  intros Hc. apply is_eol_spec in Hc. destruct Hc as [-> | ->]; reflexivity.
Qed.

Lemma text_parts_restore s : forall i acc,
  concat (map restore (text_parts i acc s)) = acc ++ s.
Proof.
  induction s as [|c s IH]; intros i acc; simpl.
  - rewrite restore_flush, app_nil_r. reflexivity.
  - destruct (is_eol c) eqn:Hc.
    + rewrite map_app, concat_app, restore_flush, map_cons, concat_cons.
      rewrite restore_text_span, IH by exact Hc. reflexivity.
    + rewrite IH, <- app_assoc. reflexivity.
Qed.

Lemma plain_flush acc : concat (map plain_text (flush acc)) = acc.
Proof. destruct acc; simpl; rewrite ?app_nil_r; reflexivity. Qed.

Lemma text_parts_plain_text s : forall i acc,
  concat (map plain_text (text_parts i acc s)) =
  acc ++ List.filter (fun c => negb (is_eol c)) s.
Proof.
  induction s as [|c s IH]; intros i acc; simpl.
  - rewrite plain_flush, app_nil_r. reflexivity.
  - destruct (is_eol c) eqn:Hc; simpl.
    + rewrite map_app, concat_app, plain_flush. simpl.
      rewrite IH. reflexivity.
    + rewrite IH, <- app_assoc. reflexivity.
Qed.

Lemma in_flush p acc : In p (flush acc) -> p = PText acc.
Proof.
  destruct acc; simpl; [tauto|]. intros [<- | []]. reflexivity.
Qed.

Lemma text_parts_span_in s : forall i acc j c,
  s !! j = Some c -> is_eol c = true ->
  In (PSpan (text_span (i + j) (c =? CR)%N)) (text_parts i acc s).
Proof.
  induction s as [|d s IH]; intros i acc j c Hj Hc; [discriminate|].
  simpl. destruct j as [|j]; simpl in Hj.
  - injection Hj as ->. rewrite Hc, Nat.add_0_r.
    apply in_or_app. right. left. reflexivity.
  - replace (i + S j) with (S i + j) by lia.
    destruct (is_eol d).
    + apply in_or_app. right. right. apply IH; assumption.
    + apply IH; assumption.
Qed.

Lemma text_parts_span_inv s : forall i acc sp,
  In (PSpan sp) (text_parts i acc s) ->
  exists j c,
    key sp = i + j /\ s !! j = Some c /\ is_eol c = true /\
    sp = text_span (i + j) (c =? CR)%N.
Proof.
  induction s as [|d s IH]; intros i acc sp Hin; simpl in Hin.
  - apply in_flush in Hin. discriminate.
  - destruct (is_eol d) eqn:Hd.
    + apply in_app_or in Hin. destruct Hin as [Hin | [Hin | Hin]].
      * apply in_flush in Hin. discriminate.
      * injection Hin as <-. exists 0, d. rewrite Nat.add_0_r.
        repeat split; solve [reflexivity | exact Hd].
      * destruct (IH _ _ _ Hin) as (j & c & Hk & Hj & Hc & Hsp).
        exists (S j), c. replace (i + S j) with (S i + j) by lia.
        repeat split; assumption.
    + destruct (IH _ _ _ Hin) as (j & c & Hk & Hj & Hc & Hsp).
      exists (S j), c. replace (i + S j) with (S i + j) by lia.
      repeat split; assumption.
Qed.

Lemma text_parts_plain s : forall i acc x,
  Forall (fun c => is_eol c = false) acc ->
  In (PText x) (text_parts i acc s) ->
  Forall (fun c => is_eol c = false) x.
Proof.
  induction s as [|d s IH]; intros i acc x Hacc Hin; simpl in Hin.
  - apply in_flush in Hin. injection Hin as ->. exact Hacc.
  - destruct (is_eol d) eqn:Hd.
    + apply in_app_or in Hin. destruct Hin as [Hin | [Hin | Hin]].
      * apply in_flush in Hin. injection Hin as ->. exact Hacc.
      * discriminate.
      * apply (IH (S i) [] x); [constructor | exact Hin].
    + apply (IH (S i) (acc ++ [d]) x); [|exact Hin].
      apply Forall_app. split; [exact Hacc|].
      constructor; [exact Hd | constructor].
Qed.

Lemma text_flush acc : concat (map part_text (flush acc)) = acc.
Proof. destruct acc; simpl; rewrite ?app_nil_r; reflexivity. Qed.

Lemma text_parts_length s : forall i acc,
  length (concat (map part_text (text_parts i acc s))) =
  length acc + length s + count_eol s.
Proof.
  unfold count_eol.
  induction s as [|c s IH]; intros i acc; simpl.
  - rewrite text_flush. lia.
  - destruct (is_eol c) eqn:Hc.
    + rewrite map_app, concat_app, text_flush. simpl map.
      rewrite concat_cons, !length_app, IH. simpl.
      destruct (c =? CR)%N; simpl; lia.
    + rewrite IH, length_app. simpl. lia.
Qed.

Lemma count_eol_pos s i c :
  s !! i = Some c -> is_eol c = true -> 0 < count_eol s.
Proof.
  unfold count_eol. revert i.
  induction s as [|d s IH]; intros i Hi Hc; [discriminate|].
  destruct i as [|i]; simpl in Hi.
  - injection Hi as ->. simpl. rewrite Hc. simpl. lia.
  - simpl. destruct (is_eol d); simpl; [lia|]. exact (IH i Hi Hc).
Qed.

Lemma count_eol_zero s :
  Forall (fun c => is_eol c = false) s -> count_eol s = 0.
Proof.
  unfold count_eol. induction 1 as [|c s Hc _ IH]; [reflexivity|].
  simpl. rewrite Hc. exact IH.
Qed.

Lemma filter_no_eol s :
  Forall (fun c => is_eol c = false) s ->
  List.filter (fun c => negb (is_eol c)) s = s.
Proof.
  induction 1 as [|c s Hc _ IH]; [reflexivity|].
  simpl. rewrite Hc. simpl. rewrite IH. reflexivity.
Qed.

End TextParts.

(** ** The highlighter on text formats *)

Section TextFormats.

Lemma highlight_text_format text format :
  format = ascii \/ format = utf8 ->
  highlightLineEndings text format = highlight_text text.
Proof. intros [-> | ->]; reflexivity. Qed.

Lemma text_in_parts text p :
  In p (node_parts (highlight_text text)) ->
  p = PText [] \/ In p (text_parts 0 [] text).
Proof.
  rewrite text_node_parts. destruct text.
  - intros [<- | []]. left. reflexivity.
  - intros H. right. exact H.
Qed.

Lemma text_node_length text :
  length (node_text (highlight_text text)) = length text + count_eol text.
Proof.
  unfold node_text. rewrite text_node_parts. destruct text as [|c text].
  - reflexivity.
  - rewrite text_parts_length. reflexivity.
Qed.

End TextFormats.

(** C2: in ascii and utf8 format every CR and every LF of the text is
    wrapped in an emphasized span, keyed by its index; every span of the
    result wraps a CR or an LF of the text; the text elements hold no CR
    and no LF; the ordinary characters come out unchanged and in order;
    and putting CR and LF back for the spans gives the text again. *)
Theorem text_wraps_every_line_ending (text : jsstring) (format : DataFormat) :
  format = ascii \/ format = utf8 ->
  let parts := node_parts (highlightLineEndings text format) in
  (forall i c, text !! i = Some c -> c = CR \/ c = LF ->
     In (PSpan (text_span i (c =? CR)%N)) parts) /\
  (forall sp, In (PSpan sp) parts ->
     exists c, text !! key sp = Some c /\ (c = CR \/ c = LF) /\
               sp = text_span (key sp) (c =? CR)%N) /\
  (forall s, In (PText s) parts -> Forall (fun c => c <> CR /\ c <> LF) s) /\
  concat (map plain_text parts) =
    List.filter (fun c => negb (is_eol c)) text /\
  concat (map restore parts) = text.
Proof.
  intros Hf parts. subst parts. rewrite (highlight_text_format _ _ Hf).
  repeat split.
  - intros i c Hc Heol. apply is_eol_spec in Heol.
    rewrite text_node_parts. destruct text as [|d text]; [discriminate|].
    apply (text_parts_span_in (d :: text) 0 [] i c Hc Heol).
  - intros sp Hin. apply text_in_parts in Hin.
    destruct Hin as [Hin | Hin]; [discriminate|].
    destruct (text_parts_span_inv _ _ _ _ Hin) as (j & c & Hk & Hj & Hc & Hsp).
    simpl in Hk. exists c. rewrite Hk.
    split; [exact Hj|]. split; [apply is_eol_spec; exact Hc | exact Hsp].
  - intros s Hin. apply text_in_parts in Hin.
    destruct Hin as [Hin | Hin].
    + injection Hin as ->. constructor.
    + apply (text_parts_plain _ _ _ _ (Forall_nil_2 _)) in Hin.
      eapply Forall_impl; [exact Hin|].
      intros c Hc. simpl in Hc.
      split; intros ->; discriminate.
  - rewrite text_node_parts. destruct text as [|d text]; [reflexivity|].
    apply (text_parts_plain_text (d :: text) 0 []).
  - rewrite text_node_parts. destruct text as [|d text]; [reflexivity|].
    apply (text_parts_restore (d :: text) 0 []).
Qed.

Lemma text_wraps_every_line_ending_witness :
  (ascii = ascii \/ ascii = utf8) /\
  concat (map restore
    (node_parts (highlightLineEndings [79; 75; CR; LF; 62]%N ascii))) =
  [79; 75; CR; LF; 62]%N.
Proof.
  split; [left; reflexivity|].
  apply (text_wraps_every_line_ending [79; 75; CR; LF; 62]%N ascii).
  left. reflexivity.
Defined.

(** C3: for binary, decimal and base64, the formats other than hex, ascii
    and utf8, the highlighter returns the text itself. *)
Theorem other_formats_identity (text : jsstring) (format : DataFormat) :
  format <> hex -> format <> ascii -> format <> utf8 ->
  (format = binary \/ format = decimal \/ format = base64) /\
  highlightLineEndings text format = RString text.
Proof.
  intros Hh Ha Hu. destruct format; try congruence; simpl; auto.
Qed.

Lemma other_formats_identity_witness :
  highlightLineEndings (lit "1,13,10") decimal = RString (lit "1,13,10").
Proof.
  apply (other_formats_identity (lit "1,13,10") decimal); discriminate.
Defined.

(** C8: in hex format the texts of the elements, concatenated in order,
    are the input text.  In ascii and utf8 format a CR is shown as the two
    characters backslash r and an LF as backslash n, the shown text is
    longer than the input by the number of CR and LF, and so differs from
    it whenever the input contains a CR or an LF. *)
Theorem content_preserved_only_in_hex (text : jsstring) (format : DataFormat) :
  node_text (highlightLineEndings text hex) = text /\
  (format = ascii \/ format = utf8 ->
   (forall i, part_text (PSpan (text_span i true)) = [92; 114]%N /\
              part_text (PSpan (text_span i false)) = [92; 110]%N) /\
   length (node_text (highlightLineEndings text format)) =
     length text + count_eol text /\
   ((exists i c, text !! i = Some c /\ (c = CR \/ c = LF)) ->
    node_text (highlightLineEndings text format) <> text) /\
   (Forall (fun c => c <> CR /\ c <> LF) text ->
    node_text (highlightLineEndings text format) = text)).
Proof.
  split; [apply hex_text_preserved|].
  intros Hf. rewrite (highlight_text_format _ _ Hf).
  split; [intros i; split; reflexivity|].
  split; [apply text_node_length|].
  split.
  - intros (i & c & Hc & Heol) E. apply is_eol_spec in Heol.
    pose proof (count_eol_pos _ _ _ Hc Heol) as Hpos.
    pose proof (text_node_length text) as Hlen.
    rewrite E in Hlen. lia.
  - intros Hall.
    assert (Hno : Forall (fun c => is_eol c = false) text).
    { eapply Forall_impl; [exact Hall|]. intros c [H1 H2].
      destruct (is_eol c) eqn:Hc; [|reflexivity].
      apply is_eol_spec in Hc. tauto. }
    unfold node_text. rewrite text_node_parts.
    destruct text as [|d text]; [reflexivity|].
    transitivity (concat (map plain_text (text_parts 0 [] (d :: text)))).
    + f_equal. apply map_ext_in. intros p Hp. destruct p as [s|sp]; [reflexivity|].
      destruct (text_parts_span_inv _ _ _ _ Hp) as (j & c & _ & Hj & Hc & _).
      rewrite Forall_lookup in Hno. rewrite (Hno _ _ Hj) in Hc. discriminate.
    + rewrite text_parts_plain_text. apply (filter_no_eol _ Hno).
Qed.

Lemma content_preserved_only_in_hex_witness :
  node_text (highlightLineEndings [79; 75; CR; LF]%N utf8) <>
  [79; 75; CR; LF]%N.
Proof.
  apply (content_preserved_only_in_hex [79; 75; CR; LF]%N utf8).
  - right. reflexivity.
  - exists 2, CR. split; [reflexivity | left; reflexivity].
Defined.

(** C9: the match of a hex token ignores case.  The tokens 0D and 0d get
    the CR emphasis and 0A and 0a the LF emphasis; the span holds the
    token as it was written; and two tokens with the same upper-case
    form, in any two texts, are either both left plain or both wrapped
    with the same style and title. *)
Theorem hex_match_ignores_case (text : jsstring) (i : nat) (word : jsstring) :
  split_spaces text !! i = Some word ->
  let parts := node_parts (highlightLineEndings text hex) in
  (word = lit "0D" \/ word = lit "0d" ->
   parts !! i = Some (PSpan (hex_span i true word))) /\
  (word = lit "0A" \/ word = lit "0a" ->
   parts !! i = Some (PSpan (hex_span i false word))) /\
  (forall sp, parts !! i = Some (PSpan sp) -> children sp = word) /\
  (forall text' j word',
     split_spaces text' !! j = Some word' ->
     toUpperCase word' = toUpperCase word ->
     match parts !! i,
           node_parts (highlightLineEndings text' hex) !! j with
     | Some (PSpan a), Some (PSpan b) => style a = style b /\ title a = title b
     | Some (PText _), Some (PText _) => True
     | _, _ => False
     end).
Proof.
  intros Hw parts.
  pose proof (hex_parts_lookup text i word Hw) as Hp. fold parts in Hp.
  repeat split.
  - intros H. apply toUpperCase_0D in H.
    rewrite Hp, (hex_part_CR _ _ H). reflexivity.
  - intros H. apply toUpperCase_0A in H.
    rewrite Hp, (hex_part_LF _ _ H). reflexivity.
  - intros sp Hsp. rewrite Hp in Hsp. injection Hsp as Hsp.
    rewrite <- (hex_part_text i word), Hsp. reflexivity.
  - intros text' j word' Hw' Hup.
    rewrite Hp, (hex_parts_lookup text' j word' Hw').
    unfold hex_part. rewrite Hup.
    destruct (bool_decide (toUpperCase word = lit "0D")
              || bool_decide (toUpperCase word = lit "0A"));
      [split; reflexivity | exact I].
Qed.

Lemma hex_match_ignores_case_witness :
  split_spaces (lit "ff 0a") !! 2 = Some (lit "0a") /\
  node_parts (highlightLineEndings (lit "ff 0a") hex) !! 2 =
    Some (PSpan (hex_span 2 false (lit "0a"))).
Proof.
  split; [reflexivity|].
  apply (hex_match_ignores_case (lit "ff 0a") 2 (lit "0a"));
    [reflexivity | right; reflexivity].
Defined.

(** ** Runs of the step machine *)

Section Runs.

Lemma step_deterministic s s1 s2 : step s s1 -> step s s2 -> s1 = s2.
Proof.
  intros H1 H2.
  inversion H1; subst; inversion H2; subst;
    solve [reflexivity | lia | congruence | intuition congruence].
Qed.

Lemma return_final r s : ~ step (Return r) s.
Proof. intros H. inversion H. Qed.

(** Every state but a return has a step. *)
Lemma step_progress s : (exists r, s = Return r) \/ (exists t, step s t).
Proof.
  destruct s as [text format | text words i parts
                | text i parts lastIndex | r].
  - right. destruct format;
      solve [ eexists; apply step_enter_hex
            | eexists; apply step_enter_text; auto
            | eexists; apply step_enter_other; discriminate ].
  - right. destruct (Nat.lt_ge_cases i (length words)).
    + eexists. apply step_hex_iter. assumption.
    + eexists. apply step_hex_exit. assumption.
  - right. destruct (Nat.lt_ge_cases i (length text)).
    + eexists. apply step_text_iter. assumption.
    + eexists. apply step_text_exit. assumption.
  - left. exists r. reflexivity.
Qed.

Lemma steps_snoc n s t u : steps n s t -> step t u -> steps (S n) s u.
Proof.
  induction 1 as [s | n s t' t Hst _ IH]; intros Hu.
  - eapply steps_S; [exact Hu | constructor].
  - eapply steps_S; [exact Hst | exact (IH Hu)].
Qed.

Lemma steps_deterministic n s t1 t2 :
  steps n s t1 -> steps n s t2 -> t1 = t2.
Proof.
  induction 1 as [s | n s t u Hst _ IH]; intros H2; inversion H2; subst.
  - reflexivity.
  - apply IH. rewrite (step_deterministic _ _ _ Hst H0). assumption.
Qed.

Lemma steps_prefix n m s u :
  steps (n + m) s u -> exists t, steps n s t /\ steps m t u.
Proof.
  revert s. induction n as [|n IH]; intros s H.
  - exists s. split; [constructor | exact H].
  - inversion H; subst.
    destruct (IH _ H2) as (t' & Hn & Hm).
    exists t'. split; [eapply steps_S; eassumption | exact Hm].
Qed.

(** A run that has reached a return cannot be extended. *)
Lemma steps_bounded n m s r t : steps n s (Return r) -> steps m s t -> m <= n.
Proof.
  intros Hn Hm. destruct (Nat.le_gt_cases m n) as [Hle | Hgt]; [exact Hle|].
  exfalso. replace m with (n + S (m - n - 1)) in Hm by lia.
  apply steps_prefix in Hm. destruct Hm as (t' & Hn' & Hrest).
  rewrite <- (steps_deterministic _ _ _ _ Hn Hn') in Hrest.
  inversion Hrest; subst. eapply return_final; eassumption.
Qed.

Lemma hex_iterations text words n :
  n <= length words ->
  steps n (HexLoop text words 0 [])
          (HexLoop text words n (for_loop n (hex_body words) [])).
Proof.
  induction n as [|n IH]; intros Hn.
  - constructor.
  - rewrite for_loop_S. eapply steps_snoc; [apply IH; lia|].
    apply step_hex_iter. lia.
Qed.

Lemma text_iterations text n :
  n <= length text ->
  steps n (TextLoop text 0 [] 0)
          (TextLoop text n
             (fst (for_loop n (text_body text) ([], 0)))
             (snd (for_loop n (text_body text) ([], 0)))).
Proof.
  induction n as [|n IH]; intros Hn.
  - constructor.
  - rewrite for_loop_S. eapply steps_snoc; [apply IH; lia|].
    rewrite (surjective_pairing (for_loop n (text_body text) ([], 0))) at 3 4.
    apply step_text_iter. lia.
Qed.

Lemma run_returns text format :
  steps (run_length text format) (Entry text format)
        (Return (highlightLineEndings text format)).
Proof.
  assert (Htext : steps (length text + 2) (Entry text ascii)
                        (Return (highlight_text text)) /\
                  steps (length text + 2) (Entry text utf8)
                        (Return (highlight_text text))).
  { assert (Hrun : steps (S (length text)) (TextLoop text 0 [] 0)
                         (Return (highlight_text text))).
    { eapply steps_snoc; [apply text_iterations; lia|].
      unfold highlight_text.
      destruct (for_loop (length text) (text_body text) ([], 0))
        as [parts lastIndex].
      apply step_text_exit. lia. }
    replace (length text + 2) with (S (S (length text))) by lia.
    split; (eapply steps_S; [apply step_enter_text; auto | exact Hrun]). }
  destruct format; simpl; try apply Htext.
  - replace (length (split_spaces text) + 2)
      with (S (S (length (split_spaces text)))) by lia.
    eapply steps_S; [apply step_enter_hex|].
    eapply steps_snoc; [apply hex_iterations; lia|].
    apply step_hex_exit. lia.
  - eapply steps_S; [apply step_enter_other; discriminate | constructor].
  - eapply steps_S; [apply step_enter_other; discriminate | constructor].
  - eapply steps_S; [apply step_enter_other; discriminate | constructor].
Qed.

End Runs.

(** ** The function on a heap *)

Section HeapRuns.

Lemma push_fresh (h : heap) parts rest p :
  push (length h) p (h ++ OParts parts :: rest) =
  (tt, h ++ OParts (parts ++ [p]) :: rest).
Proof.
  unfold push. rewrite list_lookup_middle by reflexivity.
  rewrite insert_app_r_alt by lia.
  replace (length h - length h) with 0 by lia. reflexivity.
Qed.

Lemma parts_at_fresh (h : heap) parts rest :
  parts_at (length h) (h ++ OParts parts :: rest) = parts.
Proof.
  unfold parts_at. rewrite list_lookup_middle by reflexivity. reflexivity.
Qed.

Lemma words_at_fresh (h : heap) o words rest :
  words_at (S (length h)) (h ++ o :: OWords words :: rest) = words.
Proof.
  unfold words_at. rewrite lookup_app_r by lia.
  replace (S (length h) - length h) with 1 by lia. reflexivity.
Qed.

Lemma hex_body_fresh (h : heap) words i parts :
  hex_body_st (S (length h)) (length h) i
    (h ++ [OParts parts; OWords words]) =
  h ++ [OParts (hex_body words i parts); OWords words].
Proof.
  unfold hex_body_st, hex_body. rewrite words_at_fresh.
  destruct (words !! i) as [word|]; [|reflexivity]. cbv zeta.
  destruct (bool_decide (toUpperCase word = lit "0D")
            || bool_decide (toUpperCase word = lit "0A"));
    rewrite push_fresh; reflexivity.
Qed.

Lemma hex_loop_fresh (h : heap) words n :
  for_loop n (hex_body_st (S (length h)) (length h))
    (h ++ [OParts []; OWords words]) =
  h ++ [OParts (for_loop n (hex_body words) []); OWords words].
Proof.
  induction n as [|n IH]; [reflexivity|].
  rewrite !for_loop_S, IH. apply hex_body_fresh.
Qed.

Lemma highlight_hex_st_spec text (h : heap) :
  highlight_hex_st text h =
  (match highlight_hex text with
   | RArray _ => VArray (length h)
   | RString s => VString s
   end,
   h ++ [OParts (for_loop (length (split_spaces text))
                   (hex_body (split_spaces text)) []);
         OWords (split_spaces text)]).
Proof.
  unfold highlight_hex_st, highlight_hex, alloc.
  rewrite length_app. simpl length.
  replace (length h + 1) with (S (length h)) by lia.
  rewrite <- app_assoc. simpl app.
  rewrite words_at_fresh, hex_loop_fresh, parts_at_fresh.
  destruct (0 <? _); reflexivity.
Qed.

Lemma text_body_fresh (h : heap) text i parts lastIndex :
  text_body_st text (length h) i (h ++ [OParts parts], lastIndex) =
  (h ++ [OParts (fst (text_body text i (parts, lastIndex)))],
   snd (text_body text i (parts, lastIndex))).
Proof.
  unfold text_body_st, text_body.
  destruct (text !! i) as [char|]; [|reflexivity].
  destruct ((char =? CR)%N || (char =? LF)%N); [|reflexivity].
  destruct (lastIndex <? i); repeat (rewrite push_fresh; cbn [snd]);
    reflexivity.
Qed.

Lemma text_loop_fresh (h : heap) text n :
  for_loop n (text_body_st text (length h)) (h ++ [OParts []], 0) =
  (h ++ [OParts (fst (for_loop n (text_body text) ([], 0)))],
   snd (for_loop n (text_body text) ([], 0))).
Proof.
  induction n as [|n IH]; [reflexivity|].
  rewrite !for_loop_S, IH.
  rewrite (surjective_pairing (for_loop n (text_body text) ([], 0))) at 3 4.
  apply text_body_fresh.
Qed.

Lemma highlight_text_st_spec text (h : heap) :
  exists parts,
    highlight_text_st text h =
    (match highlight_text text with
     | RArray _ => VArray (length h)
     | RString s => VString s
     end, h ++ [OParts parts]) /\
    (forall parts', highlight_text text = RArray parts' -> parts' = parts).
Proof.
  unfold highlight_text_st, highlight_text, alloc.
  rewrite text_loop_fresh.
  destruct (for_loop (length text) (text_body text) ([], 0))
    as [parts lastIndex]. cbn [fst snd].
  destruct (lastIndex <? length text).
  - rewrite push_fresh. cbn [snd]. rewrite parts_at_fresh.
    eexists. split; [destruct (0 <? _); reflexivity|].
    intros parts'. destruct (0 <? _); [|discriminate].
    intros E. injection E as <-. reflexivity.
  - rewrite parts_at_fresh.
    eexists. split; [destruct (0 <? _); reflexivity|].
    intros parts'. destruct (0 <? _); [|discriminate].
    intros E. injection E as <-. reflexivity.
Qed.

(** The call leaves the heap it finds as it is, returns the value of
    [highlightLineEndings] whatever that heap holds, and an array it
    returns is one it has created. *)
Lemma highlight_st_frame text format (h : heap) :
  take (length h) (snd (highlightLineEndings_st text format h)) = h /\
  node_of (fst (highlightLineEndings_st text format h))
          (snd (highlightLineEndings_st text format h)) =
    highlightLineEndings text format /\
  (forall l, fst (highlightLineEndings_st text format h) = VArray l ->
             length h <= l).
Proof.
  assert (Htext :
    take (length h) (snd (highlight_text_st text h)) = h /\
    node_of (fst (highlight_text_st text h)) (snd (highlight_text_st text h))
      = highlight_text text /\
    (forall l, fst (highlight_text_st text h) = VArray l -> length h <= l)).
  { destruct (highlight_text_st_spec text h) as (parts & -> & Hparts).
    simpl fst. simpl snd.
    split; [apply take_app_length|]. split.
    - destruct (highlight_text text) as [s|parts'] eqn:E; [reflexivity|].
      simpl. rewrite parts_at_fresh, (Hparts parts' eq_refl). reflexivity.
    - intros l. destruct (highlight_text text); [discriminate|].
      intros E. injection E as <-. lia. }
  destruct format; simpl highlightLineEndings_st; simpl highlightLineEndings;
    try exact Htext;
    try (split; [apply firstn_all | split; [reflexivity | discriminate]]).
  rewrite highlight_hex_st_spec. simpl fst. simpl snd.
  split; [apply take_app_length|]. split.
  - unfold highlight_hex.
    destruct (0 <? _); [|reflexivity].
    simpl. rewrite parts_at_fresh. reflexivity.
  - intros l. destruct (highlight_hex text); [discriminate|].
    intros E. injection E as <-. lia.
Qed.

End HeapRuns.

(** C4: highlightLineEndings is pure, deterministic and total.  On every
    text and every format the function runs to its [return] in the number
    of steps of one pass, with the value of [highlightLineEndings]; no run
    is longer; no state short of the return is stuck; a state has at most
    one successor, so every run that returns does so with that same value
    after that same number of steps.  Run on any heap, with its arrays
    created and filled there, the function leaves every object it finds
    as it was, returns that same value whatever the heap holds, and an
    array it returns is one it has created. *)
Theorem highlight_total_deterministic (text : jsstring) (format : DataFormat) :
  steps (run_length text format) (Entry text format)
        (Return (highlightLineEndings text format)) /\
  (forall n s, steps n (Entry text format) s -> n <= run_length text format) /\
  (forall n s, steps n (Entry text format) s ->
     (exists r, s = Return r) \/ (exists t, step s t)) /\
  (forall s s1 s2, step s s1 -> step s s2 -> s1 = s2) /\
  (forall n r, steps n (Entry text format) (Return r) ->
     n = run_length text format /\ r = highlightLineEndings text format) /\
  (forall h : heap,
     take (length h) (snd (highlightLineEndings_st text format h)) = h /\
     node_of (fst (highlightLineEndings_st text format h))
             (snd (highlightLineEndings_st text format h)) =
       highlightLineEndings text format /\
     (forall l, fst (highlightLineEndings_st text format h) = VArray l ->
                length h <= l)).
Proof.
  pose proof (run_returns text format) as Hrun.
  split; [exact Hrun|].
  split; [intros n s Hs; exact (steps_bounded _ _ _ _ _ Hrun Hs)|].
  split; [intros n s _; apply step_progress|].
  split; [apply step_deterministic|].
  split; [|intros h; apply highlight_st_frame].
  intros n r Hr.
  assert (n = run_length text format) as ->.
  { pose proof (steps_bounded _ _ _ _ _ Hrun Hr) as H1.
    pose proof (steps_bounded _ _ _ _ _ Hr Hrun) as H2. lia. }
  split; [reflexivity|].
  pose proof (steps_deterministic _ _ _ _ Hrun Hr) as E.
  injection E as E. symmetry. exact E.
Qed.

Lemma highlight_total_deterministic_witness :
  steps 6 (Entry [79; 75; CR; LF]%N ascii)
    (Return (RArray [PText (lit "OK"); PSpan (text_span 2 true);
                     PSpan (text_span 3 false)])) /\
  take 2 (snd (highlightLineEndings_st [79; 75; CR; LF]%N ascii
                 [OWords [lit "ff"]; OParts [PText (lit "ff")]])) =
  [OWords [lit "ff"]; OParts [PText (lit "ff")]].
Proof.
  pose proof (highlight_total_deterministic [79; 75; CR; LF]%N ascii)
    as (Hrun & _ & _ & _ & _ & Hheap).
  split; [exact Hrun|].
  exact (proj1 (Hheap [OWords [lit "ff"]; OParts [PText (lit "ff")]])).
Defined.

(** ** The handlers of the component *)

Section Handlers.

Context `{Imports}.

Lemma bind_preserves {A B : Type} (m : M A) (k : A -> M B) :
  preserves_props m -> (forall a, preserves_props (k a)) ->
  preserves_props (bind m k).
Proof.
  intros Hm Hk w. unfold bind. specialize (Hm w).
  destruct (m w) as [[a | err] w']; simpl in *.
  - rewrite (Hk a w'). exact Hm.
  - exact Hm.
Qed.

Lemma andThen_preserves {A B : Type} (m : M A) (k : M B) :
  preserves_props m -> preserves_props k -> preserves_props (andThen m k).
Proof. intros Hm Hk. apply bind_preserves; [exact Hm | intros _; exact Hk]. Qed.

Lemma try_catch_preserves {A : Type} (m : M A) (h : JsError -> M A) :
  preserves_props m -> (forall err, preserves_props (h err)) ->
  preserves_props (try_catch m h).
Proof.
  intros Hm Hh w. unfold try_catch. specialize (Hm w).
  destruct (m w) as [[a | err] w']; simpl in *.
  - exact Hm.
  - rewrite (Hh err w'). exact Hm.
Qed.

Lemma fire_preserves {A : Type} (m : M A) :
  preserves_props m -> preserves_props (fire m).
Proof. intros Hm w. exact (Hm w). Qed.

Lemma handleClick_preserves : preserves_props handleClick.
Proof.
  intros w. unfold handleClick.
  destruct (canResend (props w) && _ && _ && _); [|reflexivity].
  destruct (originalData (message (props w))), (onResend (props w)),
    (currentConfig (props w)); reflexivity.
Qed.

Lemma handleCopy_preserves denied : preserves_props (handleCopy denied).
Proof.
  unfold handleCopy. apply andThen_preserves; [intros w; reflexivity|].
  apply bind_preserves; [intros w; reflexivity|]. intros p.
  apply try_catch_preserves.
  - intros w. destruct denied; reflexivity.
  - intros err w. reflexivity.
Qed.

Lemma box_click_preserves : preserves_props box_click.
Proof.
  intros w. unfold box_click.
  destruct (canResend (props w)); [apply handleClick_preserves | reflexivity].
Qed.

Lemma dispatch_preserves ev : preserves_props (dispatch ev).
Proof.
  destruct ev as [| denied | |]; simpl.
  - apply andThen_preserves; [intros w; reflexivity|].
    apply box_click_preserves.
  - apply andThen_preserves; [intros w; reflexivity|].
    apply andThen_preserves; [apply fire_preserves, handleCopy_preserves|].
    intros w. unfold bubble_to_box.
    destruct (propagationStopped w); [reflexivity|].
    apply box_click_preserves.
  - intros w. reflexivity.
  - intros w. reflexivity.
Qed.

(** What [handleCopy] does, on both paths. *)
Lemma handleCopy_denied err w :
  handleCopy (Some err) w =
  (Fulfilled tt,
   {| props := props w; isHovered := isHovered w; clipboard := clipboard w;
      console := console w ++
        [console_error_entry "[MessageHistory] Failed to copy:" err];
      resends := resends w; propagationStopped := true |}).
Proof. reflexivity. Qed.

Lemma handleCopy_granted w :
  handleCopy None w =
  (Fulfilled tt,
   {| props := props w; isHovered := isHovered w;
      clipboard := displayText_of (props w);
      console := console w; resends := resends w;
      propagationStopped := true |}).
Proof. reflexivity. Qed.

Lemma canResend_inv p :
  canResend p = true ->
  type (message p) = sent /\ isConnected p = Some true /\
  (exists original, originalData (message p) = Some original /\
                    original <> []) /\
  (exists f, onResend p = Some f) /\
  (exists config, currentConfig p = Some config).
Proof.
  unfold canResend, isSent. intros Hc.
  repeat (apply andb_true_iff in Hc; destruct Hc as [Hc ?]).
  destruct (type (message p)); [|discriminate].
  destruct (isConnected p) as [[|]|]; try discriminate.
  destruct (originalData (message p)) as [[|c original]|]; try discriminate.
  destruct (onResend p) as [f|]; [|discriminate].
  destruct (currentConfig p) as [config|]; [|discriminate].
  repeat split; eauto.
Qed.

Lemma handleClick_resends : resends_at_most_once handleClick.
Proof.
  intros w. unfold handleClick.
  destruct (canResend (props w)) eqn:Hc; [|left; reflexivity].
  destruct (canResend_inv _ Hc) as
    (Ht & Hi & (original & Ho & Hne) & (f & Hf) & (config & Hcfg)).
  rewrite Ho, Hf, Hcfg. simpl.
  destruct original as [|c original]; [congruence|]. simpl.
  right. eexists. split; [reflexivity|].
  unfold resend_allowed. simpl. rewrite Ho, Hf, Hcfg.
  repeat split; assumption.
Qed.

Lemma box_click_resends : resends_at_most_once box_click.
Proof.
  intros w. unfold box_click.
  destruct (canResend (props w)); [apply handleClick_resends|].
  left. reflexivity.
Qed.

Lemma dispatch_resends ev : resends_at_most_once (dispatch ev).
Proof.
  intros w. destruct ev as [| denied | |].
  - exact (box_click_resends
             {| props := props w; isHovered := isHovered w;
                clipboard := clipboard w; console := console w;
                resends := resends w; propagationStopped := false |}).
  - left. destruct denied; reflexivity.
  - left. reflexivity.
  - left. reflexivity.
Qed.

Lemma canResend_received p : type (message p) = received -> canResend p = false.
Proof. intros Ht. unfold canResend, isSent. rewrite Ht. reflexivity. Qed.

Lemma canResend_no_original p :
  originalData (message p) = None -> canResend p = false.
Proof.
  intros Ho. unfold canResend. rewrite Ho. simpl.
  rewrite andb_false_r. reflexivity.
Qed.

Lemma no_resend_without_canResend ev w :
  canResend (props w) = false ->
  resends (snd (dispatch ev w)) = resends w /\
  resends (snd (handleClick w)) = resends w.
Proof.
  intros Hc. split.
  - destruct ev as [| [err|] | |]; simpl; try reflexivity.
    unfold andThen, bind, begin_event, box_click. simpl.
    rewrite Hc. reflexivity.
  - unfold handleClick. rewrite Hc. reflexivity.
Qed.

End Handlers.

(** C5: the copy action has one catch, around the clipboard write.  A
    rejected write, which on its own throws, makes [handleCopy] log the
    error with its tag and return normally; nothing else changes: the
    props with the message, the hover state, the clipboard and the calls
    of [onResend] are as before.  A granted write puts the displayed text
    on the clipboard and logs nothing. *)
Theorem copy_failure_logged_and_ignored `{Imports}
  (w : World) (err : JsError) :
  let w' := snd (handleCopy (Some err) w) in
  clipboard_writeText (Some err) (displayText_of (props w)) w
    = (Rejected err, w) /\
  fst (handleCopy (Some err) w) = Fulfilled tt /\
  console w' =
    console w ++ [console_error_entry "[MessageHistory] Failed to copy:" err] /\
  props w' = props w /\
  isHovered w' = isHovered w /\
  clipboard w' = clipboard w /\
  resends w' = resends w /\
  fst (handleCopy None w) = Fulfilled tt /\
  clipboard (snd (handleCopy None w)) = displayText_of (props w) /\
  console (snd (handleCopy None w)) = console w.
Proof.
  intros w'. subst w'. rewrite handleCopy_denied, handleCopy_granted.
  simpl. repeat split.
Qed.

(** C6: nothing the component does changes the message.  After a render
    and after the handling of any event, the props are the props of
    before, and so are the id, type, data, timestamp, format, displayText
    and originalData of the message. *)
Theorem message_never_mutated `{Imports} (op : Operation) (w : World) :
  let m := message (props w) in
  let m' := message (props (run op w)) in
  props (run op w) = props w /\
  id m' = id m /\ type m' = type m /\ data m' = data m /\
  timestamp m' = timestamp m /\ format m' = format m /\
  displayText m' = displayText m /\ originalData m' = originalData m.
Proof.
  intros m m'. subst m m'.
  assert (E : props (run op w) = props w).
  { destruct op as [|ev]; [reflexivity | apply dispatch_preserves]. }
  rewrite E. repeat split.
Qed.

(** C7: [onResend] is called only for a sent message that carries its
    original input, while connected and with a current configuration, and
    then once, with that input, the format of the message and that
    configuration.  This holds of [handleClick] and of the handling of
    every event; for a received message, and for a message without
    original input, no call is made. *)
Theorem resend_only_when_allowed `{Imports} (ev : Event) (w : World) :
  (resends (snd (handleClick w)) = resends w \/
   exists c, resends (snd (handleClick w)) = resends w ++ [c] /\
             resend_allowed (props w) c) /\
  (resends (snd (dispatch ev w)) = resends w \/
   exists c, resends (snd (dispatch ev w)) = resends w ++ [c] /\
             resend_allowed (props w) c) /\
  (type (message (props w)) = received \/
   originalData (message (props w)) = None ->
   resends (snd (handleClick w)) = resends w /\
   resends (snd (dispatch ev w)) = resends w).
Proof.
  split; [apply handleClick_resends|].
  split; [apply dispatch_resends|].
  intros Hno.
  assert (Hc : canResend (props w) = false).
  { destruct Hno as [Ht | Ho];
      [apply canResend_received | apply canResend_no_original]; assumption. }
  destruct (no_resend_without_canResend ev w Hc). split; assumption.
Qed.

(** C10: when [displayFormat] is given, the text is converted and
    highlighted in that format, whatever the format of the message; the
    copy action copies that text; and every call of [onResend] made while
    handling an event passes the format of the message. *)
Theorem display_override_not_resent `{Imports}
  (w : World) (d : DataFormat) (ev : Event) :
  displayFormat (props w) = Some d ->
  let p := props w in
  formatToUse p = d /\
  (exists v, render w = (Fulfilled v, w) /\
     code_children v =
       highlightLineEndings (bytesToString (data (message p)) d) d) /\
  clipboard (snd (handleCopy None w)) = bytesToString (data (message p)) d /\
  (forall c, In c (resends (snd (dispatch ev w))) ->
     In c (resends w) \/ call_format c = format (message p)).
Proof.
  intros Hd p.
  assert (Hf : formatToUse p = d).
  { unfold formatToUse. subst p. rewrite Hd. reflexivity. }
  split; [exact Hf|]. split; [|split].
  - eexists. split; [reflexivity|]. simpl.
    unfold highlightedText, displayText_of. fold p. rewrite Hf. reflexivity.
  - rewrite handleCopy_granted. simpl. unfold displayText_of. fold p.
    rewrite Hf. reflexivity.
  - intros c Hin.
    destruct (dispatch_resends ev w) as [E | (c' & E & Hok)];
      rewrite E in Hin; [left; exact Hin|].
    apply in_app_or in Hin. destruct Hin as [Hin | [<- | []]].
    + left. exact Hin.
    + right. apply Hok.
Qed.

Lemma resend_only_when_allowed_witness :
  resends (snd (dispatch (H := sample_imports) ClickBox
                  {| props :=
                       {| message :=
                            {| id := lit "m2"; type := received;
                               data := [79; 75]%N; timestamp := 1;
                               format := ascii; displayText := lit "OK";
                               originalData := None |};
                          onResend := Some (callback 0);
                          isConnected := Some true;
                          currentConfig := Some sample_config;
                          displayFormat := None |};
                     isHovered := true; clipboard := []; console := [];
                     resends := []; propagationStopped := false |})) = [].
Proof.
  refine (proj2 (proj2 (proj2
    (resend_only_when_allowed (H := sample_imports) ClickBox _)) _)).
  left. reflexivity.
Defined.

Lemma display_override_not_resent_witness :
  displayFormat (props sample_world) = Some hex /\
  format (message (props sample_world)) = ascii /\
  formatToUse (props sample_world) = hex /\
  forall c,
    In c (resends (snd (dispatch (H := sample_imports) ClickBox
                          sample_world))) ->
    In c (resends sample_world) \/ call_format c = ascii.
Proof.
  split; [reflexivity|]. split; [reflexivity|].
  pose proof (display_override_not_resent (H := sample_imports)
                sample_world hex ClickBox eq_refl) as (Hf & _ & _ & Hc).
  split; [exact Hf | exact Hc].
Defined.

(** * Further properties of the code *)

(** ** The shape of the split *)

Section SplitShape.

Lemma alternating_odd m l :
  alternating m l ->
  Nat.odd (length l) = match m with InWord => true | InSpace => false end.
Proof.
  induction 1 as [w Hw | w l Hw Hl IH | w l Hne Hw Hl IH Hin].
  - reflexivity.
  - simpl length. rewrite Nat.odd_succ, <- Nat.negb_odd, IH. reflexivity.
  - simpl length. rewrite Nat.odd_succ, <- Nat.negb_odd, IH. reflexivity.
Qed.

Lemma nonempty_length (w : jsstring) : w <> [] -> 1 <= length w.
Proof. destruct w; [congruence | simpl; lia]. Qed.

(** Separators and inner tokens hold at least one character each, so
    there are about as many pieces as characters at most. *)
Lemma alternating_length m l :
  alternating m l ->
  match m with
  | InWord =>
      length l <= length (concat l) + 2 /\
      (inner_nonempty l -> length l <= length (concat l) + 1)
  | InSpace => length l <= length (concat l) + 1
  end.
Proof.
  induction 1 as [w Hw | w l Hw Hl IH | w l Hne Hw Hl IH Hin]; simpl.
  - split; intros; lia.
  - rewrite length_app. split; [lia|].
    destruct l as [|sp l]; [inversion Hl|]. intros Hw'.
    apply nonempty_length in Hw'. simpl in *. lia.
  - rewrite length_app. apply nonempty_length in Hne.
    destruct IH as [_ IH]. specialize (IH Hin). lia.
Qed.

Lemma scan_word_run w : forall acc r,
  nonspace w -> scan InWord acc (w ++ r) = scan InWord (acc ++ w) r.
Proof.
  induction w as [|c w IH]; intros acc r Hw; simpl.
  - rewrite app_nil_r. reflexivity.
  - inversion Hw as [|? ? Hc Hw']; subst. rewrite Hc.
    rewrite IH by exact Hw'. rewrite <- app_assoc. reflexivity.
Qed.

Lemma scan_space_run w : forall acc r,
  allspace w -> scan InSpace acc (w ++ r) = scan InSpace (acc ++ w) r.
Proof.
  induction w as [|c w IH]; intros acc r Hw; simpl.
  - rewrite app_nil_r. reflexivity.
  - inversion Hw as [|? ? Hc Hw']; subst. rewrite Hc.
    rewrite IH by exact Hw'. rewrite <- app_assoc. reflexivity.
Qed.

(** Scanning the concatenation of an alternating list gives the list
    back, the pending piece joined to its head. *)
Lemma scan_of_alternating m l :
  alternating m l ->
  forall acc, scan m acc (concat l) = (acc ++ hd [] l) :: tl l.
Proof.
  induction 1 as [w Hw | w l Hw Hl IH | w l Hne Hw Hl IH Hin]; intros acc.
  - simpl. rewrite (scan_word_run w acc [] Hw). reflexivity.
  - simpl. rewrite (scan_word_run w acc (concat l) Hw).
    inversion Hl as [| |sp l' Hsp_ne Hsp Hl' Hin']; subst.
    destruct sp as [|c sp]; [congruence|].
    specialize (IH []). simpl in IH.
    inversion Hsp as [|? ? Hc _]; subst. rewrite Hc in IH.
    simpl. rewrite Hc, IH. reflexivity.
  - simpl. rewrite (scan_space_run w acc (concat l) Hw).
    destruct l as [|w' t]; [inversion Hl|].
    destruct w' as [|c w'].
    + destruct t as [|x t]; [reflexivity|]. simpl in Hin. congruence.
    + specialize (IH []). simpl in IH.
      assert (Hc : is_space c = false).
      { inversion Hl as [? Hn | ? ? Hn _|]; subst;
          inversion Hn; assumption. }
      rewrite Hc in IH. simpl. rewrite Hc, IH. reflexivity.
Qed.

End SplitShape.

(** X1: the split is the only way to cut a text into tokens free of white
    space and separators of white space that alternate, with no empty
    token between two separators. *)
Theorem split_spaces_unique (text : jsstring) (l : list jsstring) :
  alternating InWord l -> concat l = text -> split_spaces text = l.
Proof.
  intros Hl <-. unfold split_spaces.
  rewrite (scan_of_alternating _ _ Hl []).
  destruct l; [inversion Hl | reflexivity].
Qed.

Lemma split_spaces_unique_witness :
  split_spaces [32; 102; 102; 32; 32; 48; 100]%N =
  [[]; [32]; [102; 102]; [32; 32]; [48; 100]]%N.
Proof.
  apply split_spaces_unique; [|reflexivity].
  apply alt_word; [constructor|].
  apply alt_space; [discriminate | repeat constructor | | discriminate].
  apply alt_word; [repeat constructor|].
  apply alt_space; [discriminate | repeat constructor | | exact I].
  apply alt_last. repeat constructor.
Defined.

(** X2: in hex format the result is always an array, also for the empty
    text, so the fallback to the text itself is never taken; the array has
    an odd number of elements, at least one and at most two more than the
    text has characters. *)
Theorem hex_always_array (text : jsstring) :
  exists parts,
    highlightLineEndings text hex = RArray parts /\
    Nat.odd (length parts) = true /\
    1 <= length parts <= length text + 2.
Proof.
  exists (imap hex_part (split_spaces text)).
  split; [apply highlight_hex_parts|].
  rewrite length_imap.
  pose proof (split_spaces_alternating text) as Halt.
  split; [apply (alternating_odd _ _ Halt)|].
  pose proof (alternating_length _ _ Halt) as [Hlen _].
  rewrite split_spaces_concat in Hlen.
  pose proof (split_spaces_nonempty text). lia.
Qed.

(** ** The keys of the spans *)

Section SpanKeys.

Lemma increasing_from_weaken l : forall k k',
  k <= k' -> increasing_from k' l -> increasing_from k l.
Proof.
  destruct l as [|x l]; intros k k' Hk; simpl; [trivial|].
  intros [Hx Hl]. split; [lia | exact Hl].
Qed.

Lemma increasing_from_bounds l : forall k,
  increasing_from k l -> Forall (fun x => k <= x) l.
Proof.
  induction l as [|x l IH]; intros k; simpl; [constructor|].
  intros [Hx Hl]. constructor; [exact Hx|].
  eapply Forall_impl; [apply (IH _ Hl)|]. simpl. intros y Hy. lia.
Qed.

Lemma increasing_from_NoDup l : forall k, increasing_from k l -> NoDup l.
Proof.
  induction l as [|x l IH]; intros k; simpl; [constructor|].
  intros [Hx Hl]. apply NoDup_cons. split; [|exact (IH _ Hl)].
  intros Hin. apply increasing_from_bounds in Hl.
  rewrite Forall_forall in Hl. specialize (Hl x Hin). lia.
Qed.

Lemma keyed_increasing parts : forall k,
  keyed_by_index k parts -> increasing_from k (span_keys parts).
Proof.
  induction parts as [|p parts IH]; intros k Hk; [exact I|].
  assert (Hrest : keyed_by_index (S k) parts).
  { intros i sp Hi. rewrite (Hk (S i) sp Hi). lia. }
  specialize (IH _ Hrest). destruct p as [s|sp]; simpl.
  - apply (increasing_from_weaken _ k (S k)); [lia | exact IH].
  - rewrite (Hk 0 sp eq_refl), Nat.add_0_r. split; [lia | exact IH].
Qed.

Lemma hex_parts_keyed words : keyed_by_index 0 (imap hex_part words).
Proof.
  intros i sp Hi. rewrite list_lookup_imap in Hi.
  destruct (words !! i) as [w|]; [|discriminate].
  simpl in Hi. injection Hi as Hi. unfold hex_part in Hi.
  destruct (bool_decide (toUpperCase w = lit "0D")
            || bool_decide (toUpperCase w = lit "0A")); [|discriminate].
  injection Hi as <-. reflexivity.
Qed.

Lemma span_keys_flush acc : span_keys (flush acc) = [].
Proof. destruct acc; reflexivity. Qed.

Lemma text_parts_keys s : forall i acc,
  span_keys (text_parts i acc s) = eol_positions i s.
Proof.
  induction s as [|c s IH]; intros i acc; simpl.
  - apply span_keys_flush.
  - destruct (is_eol c).
    + unfold span_keys in *. rewrite flat_map_app. simpl.
      fold (span_keys (flush acc)). rewrite span_keys_flush, IH. reflexivity.
    + apply IH.
Qed.

Lemma eol_positions_increasing s : forall i,
  increasing_from i (eol_positions i s).
Proof.
  induction s as [|c s IH]; intros i; simpl; [exact I|].
  destruct (is_eol c); simpl.
  - split; [lia | apply IH].
  - apply (increasing_from_weaken _ i (S i)); [lia | apply IH].
Qed.

Lemma eol_positions_length s : forall i,
  length (eol_positions i s) = count_eol s.
Proof.
  unfold count_eol. induction s as [|c s IH]; intros i; simpl; [reflexivity|].
  destruct (is_eol c); simpl; rewrite IH; reflexivity.
Qed.

Lemma eol_positions_spec s : forall i k,
  In k (eol_positions i s) <->
  exists j c, k = i + j /\ s !! j = Some c /\ is_eol c = true.
Proof.
  induction s as [|c s IH]; intros i k; simpl.
  - split; [tauto|]. intros (j & d & _ & Hj & _). discriminate.
  - split.
    + intros Hin.
      assert (Hcase : (k = i /\ is_eol c = true) \/
                      In k (eol_positions (S i) s)).
      { destruct (is_eol c); [|right; exact Hin].
        destruct Hin as [<- | Hin]; [left; auto | right; exact Hin]. }
      destruct Hcase as [[-> Hc] | Hin'].
      * exists 0, c. rewrite Nat.add_0_r. auto.
      * apply IH in Hin'. destruct Hin' as (j & d & -> & Hj & Hd).
        exists (S j), d. split; [lia | auto].
    + intros (j & d & -> & Hj & Hd). destruct j as [|j]; simpl in Hj.
      * injection Hj as ->. rewrite Hd, Nat.add_0_r. left. reflexivity.
      * assert (Hin : In (i + S j) (eol_positions (S i) s)).
        { apply IH. exists j, d. split; [lia | auto]. }
        destruct (is_eol c); [right|]; exact Hin.
Qed.

End SpanKeys.

(** X3: in every format the React keys of the spans grow strictly along
    the result, so no two spans share a key; in hex format the key of a
    span is its index in the array. *)
Theorem span_keys_distinct (text : jsstring) (format : DataFormat) :
  let parts := node_parts (highlightLineEndings text format) in
  increasing_from 0 (span_keys parts) /\
  NoDup (span_keys parts) /\
  (format = hex -> keyed_by_index 0 parts).
Proof.
  intros parts.
  assert (Hinc : increasing_from 0 (span_keys parts)).
  { subst parts. destruct format; try exact I.
    - rewrite highlight_hex_parts. apply keyed_increasing, hex_parts_keyed.
    - change (highlightLineEndings text ascii) with (highlight_text text).
      rewrite text_node_parts. destruct text; [exact I|].
      rewrite text_parts_keys. apply eol_positions_increasing.
    - change (highlightLineEndings text utf8) with (highlight_text text).
      rewrite text_node_parts. destruct text; [exact I|].
      rewrite text_parts_keys. apply eol_positions_increasing. }
  split; [exact Hinc|]. split; [exact (increasing_from_NoDup _ _ Hinc)|].
  intros ->. subst parts. rewrite highlight_hex_parts. apply hex_parts_keyed.
Qed.

Lemma span_keys_distinct_witness :
  keyed_by_index 0 (node_parts (highlightLineEndings (lit "0d 0a") hex)).
Proof.
  apply (span_keys_distinct (lit "0d 0a") hex). reflexivity.
Defined.

(** X4: in ascii and utf8 format the keys of the spans, in order, are the
    indices of the CR and LF characters of the text: there is one span
    for each of them and none besides. *)
Theorem text_span_keys_are_positions (text : jsstring) (format : DataFormat) :
  format = ascii \/ format = utf8 ->
  let parts := node_parts (highlightLineEndings text format) in
  length (span_keys parts) = count_eol text /\
  (forall k, In k (span_keys parts) <->
             exists c, text !! k = Some c /\ (c = CR \/ c = LF)) /\
  length (List.filter is_span parts) = count_eol text.
Proof.
  intros Hf parts. subst parts. rewrite (highlight_text_format _ _ Hf).
  assert (Hk : span_keys (node_parts (highlight_text text))
               = eol_positions 0 text).
  { rewrite text_node_parts. destruct text; [reflexivity|].
    apply text_parts_keys. }
  rewrite Hk. split; [apply eol_positions_length|]. split.
  - intros k. rewrite eol_positions_spec. split.
    + intros (j & c & -> & Hj & Hc). exists c.
      split; [exact Hj | apply is_eol_spec; exact Hc].
    + intros (c & Hc & Heol). exists k, c.
      split; [reflexivity|]. split; [exact Hc | apply is_eol_spec; exact Heol].
  - rewrite <- (eol_positions_length text 0), <- Hk.
    generalize (node_parts (highlight_text text)) as ps.
    induction ps as [|[s|sp] ps IH]; simpl; [reflexivity | exact IH | ].
    rewrite IH. reflexivity.
Qed.

Lemma text_span_keys_are_positions_witness :
  length (span_keys
            (node_parts (highlightLineEndings [79; 75; CR; LF]%N utf8))) =
  count_eol [79; 75; CR; LF]%N.
Proof.
  apply (text_span_keys_are_positions [79; 75; CR; LF]%N utf8).
  right. reflexivity.
Defined.

(** ** The elements of a highlighted text *)

Section TextShape.

Lemma no_adjacent_after_flush acc sp rest :
  no_adjacent_text rest ->
  no_adjacent_text (flush acc ++ PSpan sp :: rest).
Proof.
  intros Hrest. destruct acc; simpl; auto.
Qed.

Lemma text_parts_no_adjacent s : forall i acc,
  no_adjacent_text (text_parts i acc s).
Proof.
  induction s as [|c s IH]; intros i acc; simpl.
  - destruct acc; simpl; auto.
  - destruct (is_eol c); [apply no_adjacent_after_flush|]; apply IH.
Qed.

Lemma in_flush_nonempty p acc : In p (flush acc) -> p = PText acc /\ acc <> [].
Proof.
  destruct acc; simpl; [tauto|]. intros [<- | []]. split; [reflexivity|].
  discriminate.
Qed.

Lemma text_parts_text_nonempty s : forall i acc x,
  In (PText x) (text_parts i acc s) -> x <> [].
Proof.
  induction s as [|c s IH]; intros i acc x Hin; simpl in Hin.
  - apply in_flush_nonempty in Hin. destruct Hin as [E Hne].
    injection E as ->. exact Hne.
  - destruct (is_eol c).
    + apply in_app_or in Hin. destruct Hin as [Hin | [Hin | Hin]].
      * apply in_flush_nonempty in Hin. destruct Hin as [E Hne].
        injection E as ->. exact Hne.
      * discriminate.
      * exact (IH _ _ _ Hin).
    + exact (IH _ _ _ Hin).
Qed.

Lemma flush_length acc : length (flush acc) <= 1.
Proof. destruct acc; simpl; lia. Qed.

Lemma text_parts_count s : forall i acc,
  length (text_parts i acc s) <= 2 * count_eol s + 1.
Proof.
  unfold count_eol. induction s as [|c s IH]; intros i acc; simpl.
  - apply flush_length.
  - destruct (is_eol c); simpl.
    + rewrite length_app. simpl.
      pose proof (flush_length acc). pose proof (IH (S i) []). lia.
    + apply IH.
Qed.

End TextShape.

(** X5: in ascii and utf8 format the result is the text itself exactly
    when the text is empty.  For every other text it is an array that is
    not empty, whose text elements are not empty and never follow one
    another, so each holds a whole run between two line endings; the array
    has at most one element more than twice the number of CR and LF. *)
Theorem text_result_shape (text : jsstring) (format : DataFormat) :
  format = ascii \/ format = utf8 ->
  (highlightLineEndings text format = RString text <-> text = []) /\
  (text <> [] ->
   exists parts,
     highlightLineEndings text format = RArray parts /\
     parts <> [] /\
     (forall s, In (PText s) parts -> s <> []) /\
     no_adjacent_text parts /\
     length parts <= 2 * count_eol text + 1) /\
  (forall parts, highlightLineEndings text format = RArray parts ->
     text <> [] /\
     parts <> [] /\
     (forall s, In (PText s) parts -> s <> []) /\
     no_adjacent_text parts /\
     length parts <= 2 * count_eol text + 1).
Proof.
  intros Hf. rewrite (highlight_text_format _ _ Hf), highlight_text_spec.
  destruct (text_parts 0 [] text) as [|p ps] eqn:E.
  - apply text_parts_nil_inv in E. destruct E as [_ ->].
    split; [tauto|]. split; [congruence|].
    intros parts Hparts. discriminate.
  - assert (Hne : text <> []).
    { intros ->. discriminate. }
    assert (Hshape :
      p :: ps <> [] /\
      (forall s, In (PText s) (p :: ps) -> s <> []) /\
      no_adjacent_text (p :: ps) /\
      length (p :: ps) <= 2 * count_eol text + 1).
    { rewrite <- E. split; [rewrite E; discriminate|].
      split; [intros s; apply text_parts_text_nonempty|].
      split; [apply text_parts_no_adjacent | apply text_parts_count]. }
    split; [split; [discriminate | intros ->; discriminate]|].
    split.
    + intros _. exists (p :: ps). split; [reflexivity | exact Hshape].
    + intros parts Hparts. injection Hparts as <-.
      split; [exact Hne | exact Hshape].
Qed.

Lemma text_result_shape_witness :
  exists parts,
    highlightLineEndings [79; 75; CR; LF; 62]%N ascii = RArray parts /\
    parts <> [] /\
    no_adjacent_text parts.
Proof.
  destruct (text_result_shape [79; 75; CR; LF; 62]%N ascii
              (or_introl eq_refl))
    as (_ & Harray & _).
  destruct (Harray ltac:(discriminate)) as (parts & E & Hne & _ & Hadj & _).
  exists parts. split; [exact E|]. split; [exact Hne | exact Hadj].
Defined.

(** ** What the component reads of its props *)

Section Inputs.

Context `{Imports}.

Lemma same_inputs_relabel newId newText p :
  same_inputs p (relabel newId newText p).
Proof. repeat split. Qed.

Lemma same_inputs_format p q : same_inputs p q -> formatToUse p = formatToUse q.
Proof.
  intros (_ & _ & _ & Hf & _ & _ & _ & _ & Hd).
  unfold formatToUse. rewrite Hd, Hf. reflexivity.
Qed.

Lemma same_inputs_text p q :
  same_inputs p q -> displayText_of p = displayText_of q.
Proof.
  intros Hpq. unfold displayText_of.
  rewrite (same_inputs_format _ _ Hpq).
  destruct Hpq as (_ & -> & _). reflexivity.
Qed.

Lemma same_inputs_isSent p q : same_inputs p q -> isSent p = isSent q.
Proof. intros (Ht & _). unfold isSent. rewrite Ht. reflexivity. Qed.

Lemma same_inputs_canResend p q : same_inputs p q -> canResend p = canResend q.
Proof.
  intros Hpq. unfold canResend. rewrite (same_inputs_isSent _ _ Hpq).
  destruct Hpq as (_ & _ & _ & _ & -> & -> & -> & -> & _). reflexivity.
Qed.

Lemma same_inputs_render p q w :
  same_inputs p q ->
  fst (render (with_props p w)) = fst (render (with_props q w)).
Proof.
  intros Hpq. unfold render. simpl.
  unfold highlightedText.
  rewrite (same_inputs_canResend _ _ Hpq), (same_inputs_isSent _ _ Hpq),
    (same_inputs_text _ _ Hpq), (same_inputs_format _ _ Hpq).
  destruct Hpq as (_ & _ & -> & _). reflexivity.
Qed.

Lemma same_inputs_handleClick p q w :
  same_inputs p q ->
  fst (handleClick (with_props p w)) = fst (handleClick (with_props q w)) /\
  snd (handleClick (with_props q w)) =
    with_props q (snd (handleClick (with_props p w))).
Proof.
  intros Hpq. unfold handleClick. simpl.
  rewrite (same_inputs_canResend _ _ Hpq).
  destruct Hpq as (_ & _ & _ & Hf & Ho & Hr & _ & Hc & _).
  rewrite Ho, Hr, Hc, Hf.
  destruct (canResend q && _ && _ && _); [|split; reflexivity].
  destruct (originalData (message q)), (onResend q), (currentConfig q);
    split; reflexivity.
Qed.

Lemma same_inputs_box_click p q w :
  same_inputs p q ->
  fst (box_click (with_props p w)) = fst (box_click (with_props q w)) /\
  snd (box_click (with_props q w)) =
    with_props q (snd (box_click (with_props p w))).
Proof.
  intros Hpq. unfold box_click. simpl.
  rewrite (same_inputs_canResend _ _ Hpq).
  destruct (canResend q); [|split; reflexivity].
  apply same_inputs_handleClick. exact Hpq.
Qed.

Lemma same_inputs_dispatch p q w ev :
  same_inputs p q ->
  fst (dispatch ev (with_props p w)) = fst (dispatch ev (with_props q w)) /\
  snd (dispatch ev (with_props q w)) =
    with_props q (snd (dispatch ev (with_props p w))).
Proof.
  intros Hpq. destruct ev as [| denied | |].
  - apply (same_inputs_box_click p q
             {| props := p; isHovered := isHovered w;
                clipboard := clipboard w; console := console w;
                resends := resends w; propagationStopped := false |} Hpq).
  - simpl. unfold andThen, bind, fire, handleCopy, andThen, bind. simpl.
    rewrite (same_inputs_text _ _ Hpq).
    destruct denied; split; reflexivity.
  - split; reflexivity.
  - split; reflexivity.
Qed.

Lemma arePropsEqual_inputs same prevProps nextProps :
  arePropsEqual same prevProps nextProps = true ->
  references_agree same prevProps nextProps ->
  same_inputs prevProps nextProps.
Proof.
  unfold arePropsEqual. intros Heq (Hdata & Htime & Hconfig).
  repeat (apply andb_true_iff in Heq; destruct Heq as [Heq ?]).
  repeat match goal with
         | H : bool_decide _ = true |- _ => apply bool_decide_eq_true in H
         end.
  repeat split; auto.
  destruct (currentConfig prevProps), (currentConfig nextProps);
    try discriminate; auto.
Qed.

End Inputs.

(** X6: when the comparison function of [React.memo] answers [true], the
    rendering React keeps is the rendering the next props would give, and
    its handlers do to the world what the handlers of the next props
    would do: the comparison leaves out nothing that the component
    reads. *)
Theorem memo_skip_is_safe `{Imports} (same : SameObject)
  (prevProps nextProps : MessageItemProps) (w : World) (ev : Event) :
  arePropsEqual same prevProps nextProps = true ->
  references_agree same prevProps nextProps ->
  fst (render (with_props prevProps w)) =
    fst (render (with_props nextProps w)) /\
  fst (dispatch ev (with_props prevProps w)) =
    fst (dispatch ev (with_props nextProps w)) /\
  snd (dispatch ev (with_props nextProps w)) =
    with_props nextProps (snd (dispatch ev (with_props prevProps w))).
Proof.
  intros Heq Hrefs.
  pose proof (arePropsEqual_inputs _ _ _ Heq Hrefs) as Hpq.
  split; [apply same_inputs_render; exact Hpq|].
  apply same_inputs_dispatch. exact Hpq.
Qed.

Lemma memo_skip_is_safe_witness :
  fst (render (H := sample_imports) (with_props sample_props sample_world)) =
  fst (render (H := sample_imports)
         (with_props (relabel (lit "m1") (lit "stale") sample_props)
            sample_world)).
Proof.
  apply (memo_skip_is_safe (H := sample_imports)
           {| same_data := true; same_timestamp := true;
              same_config := true |}
           sample_props (relabel (lit "m1") (lit "stale") sample_props)
           sample_world ClickBox).
  - reflexivity.
  - repeat split.
Defined.

(** X7: the identifier of a message and the text stored in it have no
    part in what the component shows, copies or resends: the text shown
    is always converted afresh from the bytes. *)
Theorem stored_text_is_never_shown `{Imports} (newId newText : jsstring)
  (p : MessageItemProps) (w : World) (ev : Event) :
  let q := relabel newId newText p in
  fst (render (with_props p w)) = fst (render (with_props q w)) /\
  fst (dispatch ev (with_props p w)) = fst (dispatch ev (with_props q w)) /\
  snd (dispatch ev (with_props q w)) =
    with_props q (snd (dispatch ev (with_props p w))).
Proof.
  intros q. pose proof (same_inputs_relabel newId newText p) as Hpq.
  split; [apply same_inputs_render; exact Hpq|].
  apply same_inputs_dispatch. exact Hpq.
Qed.

(** ** One event *)

Section OneEvent.

Context `{Imports}.

Lemma canResend_spec p :
  canResend p = true <->
  type (message p) = sent /\ isConnected p = Some true /\
  (exists original, originalData (message p) = Some original /\
                    original <> []) /\
  onResend p <> None /\ currentConfig p <> None.
Proof.
  split.
  - intros Hc.
    destruct (canResend_inv p Hc) as (Ht & Hi & Ho & (f & Hf) & (c & Hcfg)).
    repeat split; try assumption; congruence.
  - intros (Ht & Hi & (original & Ho & Hne) & Hf & Hcfg).
    unfold canResend, isSent. rewrite Ht, Hi, Ho.
    destruct original; [congruence|].
    destruct (onResend p); [|congruence].
    destruct (currentConfig p); [|congruence]. reflexivity.
Qed.

Lemma resend_call_of_canResend p :
  canResend p = true -> exists c, resend_call_of p = Some c.
Proof.
  intros Hc. unfold resend_call_of. rewrite Hc.
  destruct (canResend_inv p Hc) as (_ & _ & (o & -> & _) & (f & ->) & (c & ->)).
  eexists. reflexivity.
Qed.

Lemma resend_call_of_not p : canResend p = false -> resend_call_of p = None.
Proof. intros Hc. unfold resend_call_of. rewrite Hc. reflexivity. Qed.

Lemma handleClick_call w :
  resends (snd (handleClick w)) =
  resends w ++ match resend_call_of (props w) with
               | Some c => [c]
               | None => []
               end.
Proof.
  unfold handleClick, resend_call_of.
  destruct (canResend (props w)) eqn:Hc; simpl; [|rewrite app_nil_r; reflexivity].
  destruct (canResend_inv _ Hc) as
    (_ & _ & (o & Ho & Hne) & (f & Hf) & (c & Hcfg)).
  rewrite Ho, Hf, Hcfg. destruct o; [congruence|]. reflexivity.
Qed.

(** What the handling of one event does to each part of the world. *)
Lemma event_resends ev w :
  resends (run (Handle ev) w) =
  resends w ++ match ev, resend_call_of (props w) with
               | ClickBox, Some c => [c]
               | _, _ => []
               end.
Proof.
  destruct ev as [| [err|] | |]; simpl;
    try (destruct (resend_call_of (props w)); rewrite app_nil_r; reflexivity).
  unfold andThen, bind, begin_event, box_click. simpl.
  destruct (canResend (props w)) eqn:Hc.
  - apply (handleClick_call
             {| props := props w; isHovered := isHovered w;
                clipboard := clipboard w; console := console w;
                resends := resends w; propagationStopped := false |}).
  - rewrite (resend_call_of_not _ Hc), app_nil_r. reflexivity.
Qed.

Lemma handleClick_frame w :
  isHovered (snd (handleClick w)) = isHovered w /\
  clipboard (snd (handleClick w)) = clipboard w /\
  console (snd (handleClick w)) = console w.
Proof.
  unfold handleClick.
  destruct (canResend (props w) && _ && _ && _); [|repeat split].
  destruct (originalData (message (props w))), (onResend (props w)),
    (currentConfig (props w)); repeat split.
Qed.

Lemma box_click_frame w :
  isHovered (snd (box_click w)) = isHovered w /\
  clipboard (snd (box_click w)) = clipboard w /\
  console (snd (box_click w)) = console w.
Proof.
  unfold box_click. destruct (canResend (props w)); [|repeat split].
  apply handleClick_frame.
Qed.

Lemma event_console ev w :
  console (run (Handle ev) w) =
  console w ++ match ev with
               | ClickCopy (Some err) =>
                   [console_error_entry "[MessageHistory] Failed to copy:" err]
               | _ => []
               end.
Proof.
  destruct ev as [| [err|] | |]; simpl; rewrite ?app_nil_r; try reflexivity.
  unfold andThen, bind, begin_event. simpl.
  apply (box_click_frame
           {| props := props w; isHovered := isHovered w;
              clipboard := clipboard w; console := console w;
              resends := resends w; propagationStopped := false |}).
Qed.

Lemma event_clipboard ev w :
  clipboard (run (Handle ev) w) =
  match ev with
  | ClickCopy None => displayText_of (props w)
  | _ => clipboard w
  end.
Proof.
  destruct ev as [| [err|] | |]; simpl; try reflexivity.
  unfold andThen, bind, begin_event. simpl.
  apply (box_click_frame
           {| props := props w; isHovered := isHovered w;
              clipboard := clipboard w; console := console w;
              resends := resends w; propagationStopped := false |}).
Qed.

Lemma event_hover ev w :
  isHovered (run (Handle ev) w) =
  match ev with
  | MouseEnter => true
  | MouseLeave => false
  | _ => isHovered w
  end.
Proof.
  destruct ev as [| [err|] | |]; simpl; try reflexivity.
  unfold andThen, bind, begin_event. simpl.
  apply (box_click_frame
           {| props := props w; isHovered := isHovered w;
              clipboard := clipboard w; console := console w;
              resends := resends w; propagationStopped := false |}).
Qed.

Lemma event_props ev w : props (run (Handle ev) w) = props w.
Proof. apply dispatch_preserves. Qed.

Lemma snoc_neq {A : Type} (l : list A) (x : A) : l ++ [x] <> l.
Proof.
  intros E. apply (f_equal length) in E. rewrite length_app in E.
  simpl in E. lia.
Qed.

End OneEvent.

(** X8: a click on the copy icon never resends, whether the write to the
    clipboard is granted or not: the handler stops the event before it
    reaches the box, where the same click would have called [onResend]. *)
Theorem copy_click_never_resends `{Imports}
  (w : World) (denied : option JsError) :
  canResend (props w) = true ->
  resends (run (Handle (ClickCopy denied)) w) = resends w /\
  propagationStopped (run (Handle (ClickCopy denied)) w) = true /\
  exists c, resends (run (Handle ClickBox) w) = resends w ++ [c].
Proof.
  intros Hc. split; [|split].
  - rewrite event_resends. apply app_nil_r.
  - destruct denied; reflexivity.
  - destruct (resend_call_of_canResend _ Hc) as [c Ec]. exists c.
    rewrite event_resends, Ec. reflexivity.
Qed.

Lemma copy_click_never_resends_witness :
  resends (run (H := sample_imports) (Handle (ClickCopy None)) sample_world) =
  resends sample_world.
Proof.
  apply (copy_click_never_resends (H := sample_imports) sample_world None).
  reflexivity.
Defined.

(** X9: the box shows the pointer cursor and carries the click handler
    exactly when a click on it calls [onResend], which is exactly when
    the message was sent, the connection is active, the original input is
    present and not the empty string, and both the function and the
    configuration are given.  With an empty original input nothing is
    resent. *)
Theorem resend_affordance `{Imports} (w : World) :
  let p := props w in
  let clicked := run (Handle ClickBox) w in
  ((exists c, resends clicked = resends w ++ [c]) <-> canResend p = true) /\
  (resends clicked = resends w <-> canResend p = false) /\
  (exists v, render w = (Fulfilled v, w) /\
     (box_cursor v = "pointer"%string <-> canResend p = true) /\
     (box_cursor v = "default"%string <-> canResend p = false) /\
     box_onClick v = canResend p) /\
  (canResend p = true <->
   type (message p) = sent /\ isConnected p = Some true /\
   (exists original, originalData (message p) = Some original /\
                     original <> []) /\
   onResend p <> None /\ currentConfig p <> None) /\
  (originalData (message p) = Some [] -> resends clicked = resends w).
Proof.
  intros p clicked. subst p clicked.
  assert (Hgrow : canResend (props w) = true ->
                  exists c, resends (run (Handle ClickBox) w) = resends w ++ [c]).
  { intros Hc. destruct (resend_call_of_canResend _ Hc) as [c Ec]. exists c.
    rewrite event_resends, Ec. reflexivity. }
  assert (Hstay : canResend (props w) = false ->
                  resends (run (Handle ClickBox) w) = resends w).
  { intros Hc. rewrite event_resends, (resend_call_of_not _ Hc).
    apply app_nil_r. }
  split; [|split; [|split; [|split]]].
  - split; [|exact Hgrow]. intros [c Ec].
    destruct (canResend (props w)); [reflexivity|].
    rewrite (Hstay eq_refl) in Ec. symmetry in Ec.
    exfalso. exact (snoc_neq _ _ Ec).
  - split; [|exact Hstay]. intros E.
    destruct (canResend (props w)); [|reflexivity].
    destruct (Hgrow eq_refl) as [c Ec]. rewrite E in Ec. symmetry in Ec.
    exfalso. exact (snoc_neq _ _ Ec).
  - eexists. split; [reflexivity|]. simpl.
    destruct (canResend (props w)); repeat split; congruence.
  - apply canResend_spec.
  - intros Ho. apply Hstay. unfold canResend. rewrite Ho. simpl.
    rewrite andb_false_r. reflexivity.
Qed.

Lemma resend_affordance_witness :
  resends (run (H := sample_imports) (Handle ClickBox)
             (with_props
                {| message :=
                     {| id := lit "m3"; type := sent; data := [];
                        timestamp := 2; format := ascii; displayText := [];
                        originalData := Some [] |};
                   onResend := Some (callback 0); isConnected := Some true;
                   currentConfig := Some sample_config;
                   displayFormat := None |}
                sample_world)) = [].
Proof.
  refine (proj2 (proj2 (proj2 (proj2
    (resend_affordance (H := sample_imports) (with_props _ sample_world)))))
    _).
  reflexivity.
Defined.

(** ** Runs of events *)

Section EventRuns.

Context `{Imports}.

Lemma run_events_cons ev evs w :
  run_events (ev :: evs) w = run_events evs (run (Handle ev) w).
Proof. reflexivity. Qed.

Lemma run_events_props evs : forall w, props (run_events evs w) = props w.
Proof.
  induction evs as [|ev evs IH]; intros w; [reflexivity|].
  rewrite run_events_cons, IH. apply event_props.
Qed.

End EventRuns.

(** X10: over any run of events the props stay as they are, and the calls
    of [onResend] grow by one and the same call for each click on the box
    when the props allow a resend, and not at all when they do not. *)
Theorem resends_after_events `{Imports} (evs : list Event) (w : World) :
  props (run_events evs w) = props w /\
  resends (run_events evs w) =
  resends w ++ match resend_call_of (props w) with
               | Some c => List.repeat c (box_clicks evs)
               | None => []
               end.
Proof.
  split; [apply run_events_props|].
  revert w. induction evs as [|ev evs IH]; intros w.
  - simpl. destruct (resend_call_of (props w)); rewrite app_nil_r; reflexivity.
  - rewrite run_events_cons, IH, event_props, event_resends.
    rewrite <- app_assoc. f_equal.
    unfold box_clicks.
    destruct (resend_call_of (props w)) as [c|];
      destruct ev as [| denied | |]; reflexivity.
Qed.

(** X11: over any run of events the console grows by one tagged entry for
    each refused copy, in order, and by nothing else; the clipboard holds
    the displayed text once a copy was granted, and is untouched until
    then. *)
Theorem copies_after_events `{Imports} (evs : list Event) (w : World) :
  console (run_events evs w) =
    console w ++
    map (console_error_entry "[MessageHistory] Failed to copy:")
        (denied_copies evs) /\
  clipboard (run_events evs w) =
    if granted_copy evs then displayText_of (props w) else clipboard w.
Proof.
  revert w. induction evs as [|ev evs IH]; intros w.
  - simpl. rewrite app_nil_r. split; reflexivity.
  - rewrite run_events_cons. destruct (IH (run (Handle ev) w)) as [Hc Hb].
    rewrite Hc, Hb, event_props, event_console, event_clipboard.
    split.
    + rewrite <- app_assoc. f_equal.
      destruct ev as [| [err|] | |]; reflexivity.
    + destruct ev as [| [err|] | |]; simpl; try reflexivity.
      destruct (granted_copy evs); reflexivity.
Qed.

(** X12: over any run of events the hover state is that of the last time
    the pointer entered or left, clicks leave it alone, and the copy icon
    is opaque and takes clicks exactly while the item is hovered. *)
Theorem hover_after_events `{Imports} (evs : list Event) (w : World) :
  isHovered (run_events evs w) = last_hover evs (isHovered w) /\
  exists v,
    render (run_events evs w) = (Fulfilled v, run_events evs w) /\
    copy_opacity v = (if last_hover evs (isHovered w) then 1 else 0) /\
    copy_pointerEvents v =
      (if last_hover evs (isHovered w) then "auto" else "none")%string.
Proof.
  assert (Hh : isHovered (run_events evs w) = last_hover evs (isHovered w)).
  { revert w. induction evs as [|ev evs IH]; intros w; [reflexivity|].
    rewrite run_events_cons, IH, event_hover.
    destruct ev; reflexivity. }
  split; [exact Hh|].
  eexists. split; [reflexivity|]. simpl. rewrite Hh. split; reflexivity.
Qed.

(** X13: a granted copy puts on the clipboard the characters that the
    rendering stands for.  In hex, binary, decimal and base64 format that
    is the text shown; in ascii and utf8 format it is the text shown with
    CR and LF themselves in place of the spans that show their escapes. *)
Theorem copy_matches_display `{Imports} (w : World) :
  exists v,
    render w = (Fulfilled v, w) /\
    let copied := clipboard (run (Handle (ClickCopy None)) w) in
    let f := formatToUse (props w) in
    copied = bytesToString (data (message (props w))) f /\
    (f <> ascii -> f <> utf8 -> node_text (code_children v) = copied) /\
    (f = ascii \/ f = utf8 ->
     concat (map restore (node_parts (code_children v))) = copied).
Proof.
  eexists. split; [reflexivity|]. simpl.
  unfold highlightedText, displayText_of.
  generalize (bytesToString (data (message (props w)))
                (formatToUse (props w))) as text.
  intros text. split; [reflexivity|]. split.
  - intros Ha Hu. destruct (formatToUse (props w)); try congruence.
    + apply hex_text_preserved.
    + unfold node_text. simpl. apply app_nil_r.
    + unfold node_text. simpl. apply app_nil_r.
    + unfold node_text. simpl. apply app_nil_r.
  - intros Hf. rewrite (highlight_text_format _ _ Hf), text_node_parts.
    destruct text as [|c text]; [reflexivity|].
    apply (text_parts_restore (c :: text) 0 []).
Qed.

Lemma copy_matches_display_witness :
  clipboard (run (H := sample_imports) (Handle (ClickCopy None)) sample_world)
  = lit "41 54 0d 0a" /\
  node_text (highlightLineEndings (lit "41 54 0d 0a") hex)
  = lit "41 54 0d 0a".
Proof.
  destruct (copy_matches_display (H := sample_imports) sample_world)
    as (v & Hv & Hcopied & Hshown & _).
  injection Hv as <-. split; [exact Hcopied|].
  apply Hshown; discriminate.
Defined.
